(** * Kinect 3D video capture: a shallow embedding of the calibration,
      demultiplexing and file-format core, with its checked properties.

    Conventions of the embedding.
    - [unsigned int] and [unsigned short] values are integers in [Z]; every
      place where the C++ arithmetic wraps has the wrap written out
      ([wrap32], [wrap16]).
    - [float] and [double] values that the code computes with are exact
      rationals ([Q]): the model is the rounding-free reading of the
      arithmetic.  Values that are only moved between memory and a file are
      kept abstract, with their byte codec as an interface.
    - A file or pipe is the list of bytes still to be read; a read that runs
      past the end raises, which is [None] here.
    - C arrays are lists, an access outside the array is an error. *)

From Stdlib Require Import ZArith QArith Qround Qabs Lia Lqa List Bool.
From coqutil Require Import Byte Word.LittleEndianList.
From stdpp Require Import base option list gmap strings.
Import ListNotations.

Local Open Scope Z_scope.

(* ===================================================================== *)
(** * Part I: the embedding                                               *)
(* ===================================================================== *)

(** ** Machine integers *)

Definition wrap32 (z : Z) : Z := z mod 2 ^ 32.
Definition wrap16 (z : Z) : Z := z mod 2 ^ 16.

(** [Kinect::Size] is [Misc::Size<2>]: two [unsigned int] components,
    index 0 the width and index 1 the height. *)
Record Size : Type := mkSize { width : Z; height : Z }.

Definition volume (s : Size) : Z := width s * height s.

(** ** Kinect/FrameBuffer.h *)

Module FrameBuffer.

(** The reference counters live in the [BufferHeader] placed right before
    each payload; the store maps the address of a live payload to its
    counter.  Address 0 is the null pointer. *)
Definition ref (h : gmap Z Z) (p : Z) : option (gmap Z Z) :=
  c ← h !! p; Some (<[p := wrap32 (c + 1)]> h).

(** [unref] returns true when the buffer becomes orphaned. *)
Definition unref (h : gmap Z Z) (p : Z) : option (gmap Z Z * bool) :=
  c ← h !! p;
  let c' := wrap32 (c - 1) in
  Some (<[p := c']> h, c' =? 0).

(** Unreference and delete the padded buffer when it is orphaned. *)
Definition release (h : gmap Z Z) (p : Z) : option (gmap Z Z) :=
  '(h', orphaned) ← unref h p;
  Some (if orphaned : bool then delete p h' else h').

Record t : Type := mk {
  size : Size;
  buffer : Z;
  timeStamp : Q
}.

(** [FrameBuffer(void)] *)
Definition invalid : t := mk (mkSize 0 0) 0 0%Q.

Definition isValid (f : t) : bool := negb (buffer f =? 0).

(** [FrameBuffer& operator=(const FrameBuffer& source)] *)
Definition assign (h : gmap Z Z) (this source : t) : option (gmap Z Z * t) :=
  if negb (buffer this =? buffer source) then
    h1 ← (if negb (buffer this =? 0) then release h (buffer this) else Some h);
    let this1 := mk (size source) (buffer this) (timeStamp this) in
    let this2 := mk (size this1) (buffer source) (timeStamp this1) in
    h2 ← (if negb (buffer this2 =? 0) then ref h1 (buffer this2) else Some h1);
    let this3 := mk (size this2) (buffer this2) (timeStamp source) in
    Some (h2, this3)
  else Some (h, this).

(** A handle is backed when it is null or its payload is live. *)
Definition backed (h : gmap Z Z) (f : t) : Prop :=
  buffer f = 0 ∨ is_Some (h !! buffer f).

End FrameBuffer.

(** ** C-style loops *)

(** [for(i=lo; i<lo+n; ++i) s = body(i,s)] with a body that cannot fail. *)
Fixpoint iterate {S : Type} (n : nat) (i : Z) (body : Z → S → S) (s : S) : S :=
match n with
| O => s
| Datatypes.S n' => iterate n' (i + 1) body (body i s)
end.

Definition for_loop {S : Type} (lo hi : Z) (body : Z → S → S) (s : S) : S :=
iterate (Z.to_nat (hi - lo)) lo body s.

(** The same loop with a body that may raise. *)
Fixpoint iterate_opt {S : Type} (n : nat) (i : Z) (body : Z → S → option S)
  (s : S) : option S :=
match n with
| O => Some s
| Datatypes.S n' => s' ← body i s; iterate_opt n' (i + 1) body s'
end.

Definition for_opt {S : Type} (lo hi : Z) (body : Z → S → option S) (s : S)
  : option S :=
iterate_opt (Z.to_nat (hi - lo)) lo body s.

(** Array read and write by a C index; outside the array both are errors. *)
Definition idx {A : Type} (l : list A) (i : Z) : option A :=
if (0 <=? i) && (i <? Z.of_nat (length l)) then l !! Z.to_nat i else None.

Definition upd {A : Type} (l : list A) (i : Z) (x : A) : option (list A) :=
if (0 <=? i) && (i <? Z.of_nat (length l)) then Some (<[Z.to_nat i := x]> l)
else None.

(** ** IO::File, little-endian (as every file of the project is set) *)

(** Modelled from the spec: [IO::File] is not part of the sources; all
    integers are little-endian and floats are IEEE-754 little-endian, moved
    bit for bit.  A [Float32] or [Float64] that is only read or written is
    its bit pattern, an integer below 2^32 or 2^64. *)
Definition read_bytes (n : nat) (f : list byte) : option (list byte * list byte) :=
if (n <=? length f)%nat then Some (take n f, drop n f) else None.

Definition read_le (n : nat) (f : list byte) : option (Z * list byte) :=
'(bs, f') ← read_bytes n f; Some (le_combine bs, f').

Definition read_u32 : list byte → option (Z * list byte) := read_le 4.
Definition read_f32 : list byte → option (Z * list byte) := read_le 4.
Definition read_f64 : list byte → option (Z * list byte) := read_le 8.

Definition write_u32 (v : Z) (out : list byte) : list byte := out ++ le_split 4 v.
Definition write_f32 (v : Z) (out : list byte) : list byte := out ++ le_split 4 v.
Definition write_f64 (v : Z) (out : list byte) : list byte := out ++ le_split 8 v.

(** ** FrameSource::DepthCorrection *)

(** [PixelCorrection]: the scalar type is a parameter, bit patterns for the
    file codec and rationals for the evaluation of the spline. *)
Record PixelCorrection (F : Type) : Type := mkPC { scale : F; offset : F }.
Arguments mkPC {F} _ _.
Arguments scale {F} _.
Arguments offset {F} _.

Record DepthCorrection (F : Type) : Type := mkDC {
  degree : Z;
  numSegments : Size;
  controlPoints : list (PixelCorrection F)
}.
Arguments mkDC {F} _ _ _.
Arguments degree {F} _.
Arguments numSegments {F} _.
Arguments controlPoints {F} _.

(** [(numSegments[1]+degree)*(numSegments[0]+degree)] in [unsigned int]. *)
Definition numControlPoints (deg : Z) (segs : Size) : Z :=
wrap32 (wrap32 (height segs + deg) * wrap32 (width segs + deg)).

(** The class invariant every constructor establishes: 32-bit fields and a
    control point array of [numControlPoints] entries. *)
Definition dc_wf {F : Type} (dc : DepthCorrection F) : Prop :=
0 ≤ degree dc < 2 ^ 32
∧ 0 ≤ width (numSegments dc) < 2 ^ 32
∧ 0 ≤ height (numSegments dc) < 2 ^ 32
∧ Z.of_nat (length (controlPoints dc))
  = numControlPoints (degree dc) (numSegments dc).

Definition pc_bits (cp : PixelCorrection Z) : Prop :=
0 ≤ scale cp < 2 ^ 32 ∧ 0 ≤ offset cp < 2 ^ 32.

Module DepthCorrectionIO.

(** [DepthCorrection::DepthCorrection(IO::File& file)] *)
Definition read (f : list byte) : option (DepthCorrection Z * list byte) :=
'(deg, f) ← read_u32 f;
'(s0, f) ← read_u32 f;
'(s1, f) ← read_u32 f;
let segs := mkSize s0 s1 in
let n := numControlPoints deg segs in
let fresh := replicate (Z.to_nat n) (mkPC 0 0) in
'(cps, f) ← for_opt 0 n
    (λ i '(cps, f),
       '(sc, f) ← read_f32 f;
       '(off, f) ← read_f32 f;
       cps ← upd cps i (mkPC sc off);
       Some (cps, f))
    (fresh, f);
Some (mkDC deg segs cps, f).

(** [void DepthCorrection::write(IO::File& file) const] *)
Definition write (dc : DepthCorrection Z) (out : list byte) : option (list byte) :=
let out := write_u32 (degree dc) out in
let out := write_u32 (width (numSegments dc)) out in
let out := write_u32 (height (numSegments dc)) out in
let n := numControlPoints (degree dc) (numSegments dc) in
for_opt 0 n
  (λ i out,
     cp ← idx (controlPoints dc) i;
     Some (write_f32 (offset cp) (write_f32 (scale cp) out)))
  out.

(** The layout of the format, in the words of the specification: three
    [u32], then one ([f32] scale, [f32] offset) pair per control point. *)
Definition enc_cp (cp : PixelCorrection Z) : list byte :=
le_split 4 (scale cp) ++ le_split 4 (offset cp).

Definition layout (dc : DepthCorrection Z) : list byte :=
le_split 4 (degree dc) ++ le_split 4 (width (numSegments dc))
++ le_split 4 (height (numSegments dc))
++ concat (map enc_cp (controlPoints dc)).

End DepthCorrectionIO.

(** ** FrameSource::IntrinsicParameters: lens distortion codec *)

Module LensDistortionIO.

(** Modelled from the spec: [Video::LensDistortion] is not part of the
    sources.  Its parameter vector holds the center, the six radial
    coefficients and the two tangential coefficients, in this order. *)
Record LensDistortion : Type := mkLD {
  center : Z * Z;
  kappas : list Z;
  rhos : list Z
}.

Definition getParameterVector (ld : LensDistortion) : list Z :=
[fst (center ld); snd (center ld)] ++ kappas ld ++ rhos ld.

Definition setParameterVector (pv : list Z) : LensDistortion :=
mkLD (nth 0 pv 0, nth 1 pv 0) (take 6 (drop 2 pv)) (take 2 (drop 8 pv)).

(** One [pv[k]=Scalar(file.read<Misc::Float64>())]. *)
Definition read_into (k : Z) (st : list Z * list byte)
  : option (list Z * list byte) :=
let '(pv, f) := st in
'(v, f) ← read_f64 f;
pv ← upd pv k v;
Some (pv, f).

(** [readLensDistortion(IO::File& file,bool newFormat)] *)
Definition readLensDistortion (f : list byte) (newFormat : bool)
  : option (LensDistortion * list byte) :=
let pv := replicate 10 0 in
st ← for_opt 0 2 (λ i st, read_into i st) (pv, f);
st ← for_opt 0 3 (λ i st, read_into (2 + i) st) st;
st ← (if newFormat
      then for_opt 3 6 (λ i st, read_into (2 + i) st) st
      else for_opt 3 6 (λ i '(pv, f), pv ← upd pv (2 + i) 0; Some (pv, f)) st);
'(pv, f) ← for_opt 0 2 (λ i st, read_into (2 + 6 + i) st) st;
Some (setParameterVector pv, f).

(** [writeLensDistortion(const LensDistortion& ld,IO::File& file)] *)
Definition writeLensDistortion (ld : LensDistortion) (out : list byte)
  : option (list byte) :=
let pv := getParameterVector ld in
for_opt 0 (2 + 6 + 2) (λ i out, v ← idx pv i; Some (write_f64 v out)) out.

Definition f64s (vs : list Z) : list byte := concat (map (le_split 8) vs).

End LensDistortionIO.

(** ** FrameSource.cpp: evaluation of the depth correction B-spline *)

Module BSpline.

Local Open Scope Q_scope.

Definition Qltb (x y : Q) : bool := negb (Qle_bool y x).

(** Conversion of an [unsigned int] to [int]. *)
Definition to_int (z : Z) : Z :=
if (wrap32 z <? 2 ^ 31)%Z then wrap32 z else (wrap32 z - 2 ^ 32)%Z.

(** [DepthCorrection::DepthCorrection(unsigned int sDegree,const Size&)] *)
Definition create (sDegree : Z) (sNumSegments : Size) : DepthCorrection Q :=
let n := numControlPoints sDegree sNumSegments in
mkDC sDegree sNumSegments (replicate (Z.to_nat n) (mkPC 1 0)).

(** [PixelCorrection::correct] *)
Definition correct (pc : PixelCorrection Q) (depth : Q) : Q :=
depth * scale pc + offset pc.

(** [inline float bs(int i,int n,float x)], with its scratch array
    [float bsTemp[21]]. *)
Definition bs (i n : Z) (x : Q) : option Q :=
if Qltb x (inject_Z i) || Qle_bool (inject_Z (i + n + 1)) x then Some 0
else
  bsTemp ← for_opt 0 (n + 1)
    (λ j bsTemp,
       upd bsTemp j
         (if Qle_bool (inject_Z (i + j)) x && Qltb x (inject_Z (i + j + 1))
          then 1 else 0))
    (replicate 21 0);
  bsTemp ← for_opt 1 (n + 1)
    (λ ni bsTemp,
       for_opt 0 (n - ni + 1)
         (λ j bsTemp,
            a ← idx bsTemp j;
            b ← idx bsTemp (j + 1);
            upd bsTemp j
              (((x - inject_Z (i + j)) * a
                + (inject_Z (i + j + ni + 1) - x) * b) / inject_Z ni))
         bsTemp)
    bsTemp;
  idx bsTemp 0.

(** The pixel position in B-spline space. *)
Definition to_spline (pixel numSeg frame : Z) : Q :=
((inject_Z pixel + (1 # 2)) * inject_Z numSeg) / inject_Z frame.

(** [PixelCorrection getPixelCorrection(const Offset& pixel,
    const Size& frameSize) const]; the state of the loops is the result and
    the position of [cpPtr]. *)
Definition getPixelCorrection (dc : DepthCorrection Q) (pixel : Z * Z)
  (frameSize : Size) : option (PixelCorrection Q) :=
let d0 := to_spline (fst pixel) (width (numSegments dc)) (width frameSize) in
let d1 := to_spline (snd pixel) (height (numSegments dc)) (height frameSize) in
let id := to_int (degree dc) in
let maxi := to_int (height (numSegments dc) + degree dc) in
let maxj := to_int (width (numSegments dc) + degree dc) in
'(result, _) ← for_opt 0 maxi
  (λ i st,
     bsi ← bs (i - id) id d1;
     for_opt 0 maxj
       (λ j '(result, cpPtr),
          bsj ← bs (j - id) id d0;
          cp ← idx (controlPoints dc) cpPtr;
          Some (mkPC (scale result + scale cp * bsi * bsj)
                     (offset result + offset cp * bsi * bsj),
                (cpPtr + 1)%Z))
       st)
  (mkPC 0 0, 0%Z);
Some result.

(** The scratch array [PixelCorrection bsTemp[16][16]] of [bspline]. *)
Definition idx2 (t : list (PixelCorrection Q)) (i j : Z)
  : option (PixelCorrection Q) :=
if (0 <=? i)%Z && (i <? 16)%Z && (0 <=? j)%Z && (j <? 16)%Z
then t !! Z.to_nat (i * 16 + j) else None.

Definition upd2 (t : list (PixelCorrection Q)) (i j : Z)
  (x : PixelCorrection Q) : option (list (PixelCorrection Q)) :=
if (0 <=? i)%Z && (i <? 16)%Z && (0 <=? j)%Z && (j <? 16)%Z
then Some (<[Z.to_nat (i * 16 + j) := x]> t) else None.

Definition blend (w1 : Q) (p1 : PixelCorrection Q) (w0 : Q)
  (p0 : PixelCorrection Q) : PixelCorrection Q :=
mkPC (w1 * scale p1 + w0 * scale p0) (w1 * offset p1 + w0 * offset p0).

(** [inline PixelCorrection bspline(unsigned int degree,
    const Size& numSegments,const PixelCorrection controlPoints[],
    float x,float y)] *)
Definition bspline (degree : Z) (numSegments : Size)
  (controlPoints : list (PixelCorrection Q)) (x y : Q)
  : option (PixelCorrection Q) :=
let i0 := wrap32 (Qfloor y) in
let j0 := wrap32 (Qfloor x) in
bsTemp ← for_opt 0 (degree + 1)
  (λ i bsTemp,
     for_opt 0 (degree + 1)
       (λ j bsTemp,
          cp ← idx controlPoints
                 (wrap32 ((i0 + i) * (width numSegments + degree) + (j0 + j)));
          upd2 bsTemp i j cp)
       bsTemp)
  (replicate 256 (mkPC 0 0));
bsTemp ← for_opt 0 degree
  (λ ni bsTemp,
     let sd := (degree - ni)%Z in
     bsTemp ← for_opt 0 sd
       (λ j bsTemp,
          let w0 := (inject_Z (wrap32 (j0 + j + 1)) - x) / inject_Z sd in
          let w1 := 1 - w0 in
          for_opt 0 (sd + 1)
            (λ i bsTemp,
               a ← idx2 bsTemp i (j + 1);
               b ← idx2 bsTemp i j;
               upd2 bsTemp i j (blend w1 a w0 b))
            bsTemp)
       bsTemp;
     for_opt 0 sd
       (λ i bsTemp,
          let w0 := (inject_Z (wrap32 (i0 + i + 1)) - y) / inject_Z sd in
          let w1 := 1 - w0 in
          for_opt 0 (sd + 1)
            (λ j bsTemp,
               a ← idx2 bsTemp (i + 1) j;
               b ← idx2 bsTemp i j;
               upd2 bsTemp i j (blend w1 a w0 b))
            bsTemp)
       bsTemp)
  bsTemp;
idx2 bsTemp 0 0.

(** [PixelCorrection* getPixelCorrection(const Size& frameSize) const]: the
    table is filled through [rPtr], one cell after the other. *)
Definition getPixelCorrectionTable (dc : DepthCorrection Q) (frameSize : Size)
  : option (list (PixelCorrection Q)) :=
for_opt 0 (height frameSize)
  (λ y result,
     let dy := to_spline y (height (numSegments dc)) (height frameSize) in
     for_opt 0 (width frameSize)
       (λ x result,
          let dx := to_spline x (width (numSegments dc)) (width frameSize) in
          cell ← bspline (degree dc) (numSegments dc) (controlPoints dc) dx dy;
          Some (result ++ [cell]))
       result)
  [].

End BSpline.

(** ** CompressDepthFile.cpp: background capture and removal *)

Module CompressDepthFile.

(** [FrameSource::invalidDepth] *)
Definition invalidDepth : Z := 0x07ff.

(** [if( *bfPtr > *dfPtr-2 ) *bfPtr = *dfPtr-2;] on [unsigned short] cells:
    both operands are promoted to [int], so the test is a signed one, and
    the store converts the [int] back to [unsigned short]. *)
Definition capture_pixel (bf df : Z) : Z :=
if df - 2 <? bf then wrap16 (df - 2) else bf.

(** [if( *dfPtr >= *bfPtr ) *dfPtr = invalidDepth;] *)
Definition remove_pixel (df bf : Z) : Z :=
if bf <=? df then invalidDepth else df.

(** The two pointer walks over [size.volume()] cells. *)
Fixpoint capture_frame (background frame : list Z) : list Z :=
match background, frame with
| bf :: background', df :: frame' =>
    capture_pixel bf df :: capture_frame background' frame'
| _, _ => background
end.

Fixpoint remove_background (frame background : list Z) : list Z :=
match frame, background with
| df :: frame', bf :: background' =>
    remove_pixel df bf :: remove_background frame' background'
| _, _ => frame
end.

(** The frame loop of [main]: the state is the background frame and
    [numCaptureFrames]; the result is the final background and the frames
    handed to the writer. *)
Fixpoint process (numCaptureFrames : Z) (background : list Z)
  (frames : list (list Z)) : list Z * list (list Z) :=
match frames with
| [] => (background, [])
| frame :: rest =>
    if 0 <? numCaptureFrames then
      let '(bg, out) :=
        process (wrap32 (numCaptureFrames - 1))
                (capture_frame background frame) rest in
      (bg, frame :: out)
    else
      let '(bg, out) := process numCaptureFrames background rest in
      (bg, remove_background frame background :: out)
end.

Definition main (size : Size) (frames : list (list Z)) : list Z * list (list Z) :=
process 150 (replicate (Z.to_nat (volume size)) invalidDepth) frames.

(** The background of one pixel in the words of the specification: the
    minimum over the captured frames of the raw depth minus 2, starting
    from [INVALID_DEPTH]. *)
Definition spec_background_pixel (raws : list Z) : Z :=
foldr (λ df acc, Z.min (df - 2) acc) invalidDepth raws.

(** The raw depths seen by the pixel at [k] over the captured frames. *)
Definition pixel_history (k : nat) (frames : list (list Z)) : list Z :=
omap (λ frame : list Z, frame !! k) frames.

End CompressDepthFile.

(** ** Comm::Pipe *)

Module Pipe.

Inductive Endianness : Type := LittleEndian | BigEndian.

Definition opposite (e : Endianness) : Endianness :=
match e with LittleEndian => BigEndian | BigEndian => LittleEndian end.

Definition encode (e : Endianness) (n : nat) (v : Z) : list byte :=
match e with LittleEndian => le_split n v | BigEndian => rev (le_split n v) end.

Definition decode (e : Endianness) (bs : list byte) : Z :=
match e with LittleEndian => le_combine bs | BigEndian => le_combine (rev bs) end.

(** Modelled from the spec: [Comm::Pipe] is not part of the sources.  A pipe
    is the bytes still to arrive from the server, the bytes sent so far, and
    the swap-on-read flag; values are written in the client's byte order
    and a read reverses the bytes of a value when the flag is set. *)
Record t : Type := mk {
  input : list byte;
  output : list byte;
  swapOnRead : bool
}.

Inductive error : Type := EndOfPipe | UnrecognizedEndianness.

Inductive result (A : Type) : Type :=
| Ok (a : A)
| Err (e : error).
Arguments Ok {A} _.
Arguments Err {A} _.

(** An operation on the pipe changes the pipe and returns or throws; what
    was written before a throw stays written. *)
Definition M (A : Type) : Type := t → t * result A.

Definition ret {A : Type} (a : A) : M A := λ p, (p, Ok a).

Definition throw {A : Type} (e : error) : M A := λ p, (p, Err e).

Definition bind {A B : Type} (m : M A) (k : A → M B) : M B :=
λ p, match m p with
     | (p', Ok a) => k a p'
     | (p', Err e) => (p', Err e)
     end.

Definition write (host : Endianness) (n : nat) (v : Z) : M unit :=
λ p, (mk (input p) (output p ++ encode host n v) (swapOnRead p), Ok tt).

Definition read (host : Endianness) (n : nat) : M Z :=
λ p, if (n <=? length (input p))%nat then
       let bs := take n (input p) in
       let bs := if swapOnRead p then rev bs else bs in
       (mk (drop n (input p)) (output p) (swapOnRead p), Ok (decode host bs))
     else (p, Err EndOfPipe).

Definition setSwapOnRead (b : bool) : M unit :=
λ p, (mk (input p) (output p) b, Ok tt).

End Pipe.

Notation "x ⇐ m ;; k" := (Pipe.bind m (λ x, k))
  (at level 100, m at next level, right associativity,
   format "x  ⇐  m ;;  '/' k").

(** ** Kinect/MultiplexedFrameSource.cpp *)

Module MultiplexedFrameSource.

Record Header : Type := mkHeader {
  serverProtocolVersion : Z;
  timeStampOffset : Z;
  numStreams : Z
}.

(** [MultiplexedFrameSource::MultiplexedFrameSource(Comm::PipePtr)], up to
    and including [numStreams=pipe->read<Misc::UInt32>()]; the component
    streams are initialised after that. *)
Definition construct (host : Pipe.Endianness) : Pipe.M Header :=
_ ⇐ Pipe.write host 4 0x12345678;;
_ ⇐ Pipe.write host 4 1;;
endiannessFlag ⇐ Pipe.read host 4;;
_ ⇐ (if endiannessFlag =? 0x78563412 then Pipe.setSwapOnRead true
     else if negb (endiannessFlag =? 0x12345678)
          then Pipe.throw Pipe.UnrecognizedEndianness
          else Pipe.ret tt);;
version ⇐ Pipe.read host 4;;
offset ⇐ Pipe.read host 8;;
n ⇐ Pipe.read host 4;;
Pipe.ret (mkHeader version offset n).

End MultiplexedFrameSource.

(** ** Kinect/FrameBuffer.h: the life of a handle *)

Module FrameBufferLife.
Import FrameBuffer.

(** [FrameBuffer(const Size& sSize,size_t bufferSize)]; [p] is the address
    of the payload inside the padded buffer that [new] returns. *)
Definition create (h : gmap Z Z) (p : Z) (sSize : Size) : gmap Z Z * t :=
(<[p := 1]> h, mk sSize p 0%Q).

(** [FrameBuffer(const FrameBuffer& source)] *)
Definition copy (h : gmap Z Z) (source : t) : option (gmap Z Z * t) :=
h' ← (if negb (buffer source =? 0) then ref h (buffer source) else Some h);
Some (h', mk (size source) (buffer source) (timeStamp source)).

(** [~FrameBuffer(void)] *)
Definition destroy (h : gmap Z Z) (this : t) : option (gmap Z Z) :=
if negb (buffer this =? 0) then release h (buffer this) else Some h.

(** [void invalidate(void)] *)
Definition invalidate (h : gmap Z Z) (this : t) : option (gmap Z Z * t) :=
let this := mk (mkSize 0 0) (buffer this) (timeStamp this) in
if negb (buffer this =? 0) then
  h' ← release h (buffer this);
  Some (h', mk (size this) 0 (timeStamp this))
else Some (h, this).

(** A program holds a table of handles and works on it through the
    operations of the class. *)
Inductive op : Type :=
| Create (p : Z) (sSize : Size)
| Copy (i : nat)
| Destroy (i : nat)
| Assign (i j : nat)
| Invalidate (i : nat).

Definition step (st : gmap Z Z * list t) (o : op) : option (gmap Z Z * list t) :=
let '(h, hs) := st in
match o with
| Create p sSize =>
    let '(h', f) := create h p sSize in Some (h', hs ++ [f])
| Copy i =>
    source ← hs !! i;
    '(h', f) ← copy h source;
    Some (h', hs ++ [f])
| Destroy i =>
    this ← hs !! i;
    h' ← destroy h this;
    Some (h', delete i hs)
| Assign i j =>
    this ← hs !! i;
    source ← hs !! j;
    '(h', this') ← assign h this source;
    Some (h', <[i := this']> hs)
| Invalidate i =>
    this ← hs !! i;
    '(h', this') ← invalidate h this;
    Some (h', <[i := this']> hs)
end.

(** What the operation needs: handles that exist, and for [Create] an
    address the allocator may return (not null, not in use). *)
Definition allowed (st : gmap Z Z * list t) (o : op) : Prop :=
let '(h, hs) := st in
match o with
| Create p _ => p ≠ 0 ∧ h !! p = None
| Copy i | Destroy i | Invalidate i => (i < length hs)%nat
| Assign i j => (i < length hs)%nat ∧ (j < length hs)%nat
end.

(** Whether the handle [f] points to the payload at [p], as a number. *)
Definition points (f : t) (p : Z) : Z :=
if decide (buffer f = p) then 1 else 0.

(** The number of handles of the table that point to the payload at [p]. *)
Definition references (p : Z) (hs : list t) : Z :=
Z.of_nat (length (filter (λ f, buffer f = p) hs)).

(** Every payload that some handle points to is live and its counter is the
    number of those handles; no other payload is live. *)
Definition consistent (st : gmap Z Z * list t) : Prop :=
∀ p, p ≠ 0 →
  st.1 !! p
  = (if references p st.2 =? 0 then None else Some (references p st.2)).

End FrameBufferLife.

(** ** FrameSource::DepthCorrection: the other members and their users *)

Module DepthCorrectionUse.

(** [bool isValid(void) const] *)
Definition isValid {F : Type} (dc : DepthCorrection F) : bool := 0 <? degree dc.

(** [DepthCorrection(unsigned int sDegree,const Size& sNumSegments)] with
    the bit patterns of [1.0f] and [0.0f]. *)
Definition create (sDegree : Z) (sNumSegments : Size) : DepthCorrection Z :=
let n := numControlPoints sDegree sNumSegments in
mkDC sDegree sNumSegments (replicate (Z.to_nat n) (mkPC 0x3f800000 0)).

(** [DepthCorrection(const DepthCorrection& source)]; [fresh] is what the
    newly allocated array holds before it is filled. *)
Definition copy {F : Type} (fresh : PixelCorrection F)
  (source : DepthCorrection F) : option (DepthCorrection F) :=
let n := numControlPoints (degree source) (numSegments source) in
cps ← for_opt 0 n
  (λ i cps, cp ← idx (controlPoints source) i; upd cps i cp)
  (replicate (Z.to_nat n) fresh);
Some (mkDC (degree source) (numSegments source) cps).

(** [source.skip<T>(n)] for [n] items of [size] bytes. *)
Definition skip (size n : Z) (f : list byte) : option (list byte) :=
if (0 <=? size * n) && (size * n <=? Z.of_nat (length f))
then Some (drop (Z.to_nat (size * n)) f) else None.

(** The depth correction part of
    [MultiplexedFrameSource::Stream::Stream]: what the member
    [depthCorrection] ends up as ([None] is the null pointer), by the format
    version of the depth stream. *)
Definition Stream_depthCorrection (depthVersion : Z) (source : list byte)
  : option (option (DepthCorrection Z) * list byte) :=
if 4 <=? depthVersion then
  '(dc, source) ← DepthCorrectionIO.read source;
  Some (if isValid dc then Some dc else None, source)
else
  source ← (if 2 <=? depthVersion then
              '(flag, source) ← read_le 1 source;
              if negb (flag =? 0) then
                '(w, source) ← read_u32 source;
                '(h, source) ← read_u32 source;
                skip 4 (volume (mkSize w h) * 2) source
              else Some source
            else Some source);
  Some (Some (create 0 (mkSize 1 1)), source).

(** [Stream::getDepthCorrectionParameters]: a clone, or null. *)
Definition Stream_getDepthCorrectionParameters
  (depthCorrection : option (DepthCorrection Z))
  : option (option (DepthCorrection Z)) :=
match depthCorrection with
| Some dc => dc' ← copy (mkPC 0 0) dc; Some (Some dc')
| None => Some None
end.

(** The "Calibrate" branch of [DepthCorrectionTool::buttonCallback], from
    the solved coefficients on: [bsplineCoeffs] is the matrix of the
    solution, one row (scale, offset) per control point, already converted
    to [Misc::Float32]. *)
Definition DepthCorrectionTool_save (degree : Z) (numSegments : Size)
  (bsplineCoeffs : list (Z * Z)) (out : list byte) : option (list byte) :=
let numControlPoints := numControlPoints degree numSegments in
correctionCoefficients ← for_opt 0 numControlPoints
  (λ i cc,
     row ← idx bsplineCoeffs i;
     cc ← upd cc (wrap32 (2 * i + 0)) row.1;
     upd cc (wrap32 (2 * i + 1)) row.2)
  (replicate (Z.to_nat (wrap32 (numControlPoints * 2))) 0);
let out := write_u32 degree out in
let out := write_u32 (width numSegments) out in
let out := write_u32 (height numSegments) out in
for_opt 0 (wrap32 (numControlPoints * 2))
  (λ k out, v ← idx correctionCoefficients k; Some (write_f32 v out))
  out.

End DepthCorrectionUse.

(** ** The intrinsic parameter file: its writers and readers *)

Module IntrinsicFile.
Import LensDistortionIO.

(** [file->read(array,n)] and [file->write(array,n)] for [Misc::Float64]. *)
Definition read_f64_array (n : Z) (f : list byte) : option (list Z * list byte) :=
for_opt 0 n
  (λ i '(a, f), '(v, f) ← read_f64 f; a ← upd a i v; Some (a, f))
  (replicate (Z.to_nat n) 0, f).

Definition write_f64_array (a : list Z) (n : Z) (out : list byte)
  : option (list byte) :=
for_opt 0 n (λ i out, v ← idx a i; Some (write_f64 v out)) out.

(** Modelled from the spec: [Video::LensDistortion::setKappa] and
    [setRho] store one radial or tangential coefficient. *)
Definition setKappa (i : Z) (v : Z) (ld : LensDistortion) : option LensDistortion :=
ks ← upd (kappas ld) i v; Some (mkLD (center ld) ks (rhos ld)).

Definition setRho (i : Z) (v : Z) (ld : LensDistortion) : option LensDistortion :=
rs ← upd (rhos ld) i v; Some (mkLD (center ld) (kappas ld) rs).

(** A [Math::Matrix] of 4 rows and 4 columns is its 16 entries, row after
    row; [m(i,j)] is the entry [i*4+j]. *)
Definition write_matrix4 (m : list Z) (out : list byte) : option (list byte) :=
for_opt 0 4
  (λ i out,
     for_opt 0 4 (λ j out, v ← idx m (i * 4 + j); Some (write_f64 v out)) out)
  out.

(** The end of [TiePointTool::calibrateCameras]: the new intrinsic
    parameter file, from the depth lens distortion and depth projection of
    the application and the color projection just computed. *)
Definition TiePointTool_write (depthLensDistortion : LensDistortion)
  (depthProjection colorProjection : list Z) (out : list byte)
  : option (list byte) :=
out ← for_opt 0 3
  (λ i out, k ← idx (kappas depthLensDistortion) i; Some (write_f64 k out)) out;
out ← for_opt 0 2
  (λ i out, r ← idx (rhos depthLensDistortion) i; Some (write_f64 r out)) out;
out ← write_matrix4 depthProjection out;
write_matrix4 colorProjection out.

(** The loader of [BackgroundViewer::BackgroundViewer]: [ips] is the
    default constructed parameter object, [f] the whole file. *)
Definition BackgroundViewer_load (ips : LensDistortion) (f : list byte)
  : option (LensDistortion * list Z * list Z) :=
'(ld, f) ← (if Z.of_nat (length f) =? 296 then
              '(p, f) ← read_f64_array 5 f;
              ld ← for_opt 0 3 (λ i ld, v ← idx p i; setKappa i v ld) ips;
              ld ← for_opt 0 2 (λ i ld, v ← idx p (3 + i); setRho i v ld) ld;
              Some (ld, f)
            else Some (ips, f));
'(depthMatrix, f) ← read_f64_array (4 * 4) f;
'(colorMatrix, f) ← read_f64_array (4 * 4) f;
Some (ld, depthMatrix, colorMatrix).

(** The end of [main] of CalibrateCameras.cpp: the file is read, and written
    again with the color projection just computed. *)
Definition CalibrateCameras_rewrite (f : list byte) (colorProjection : list Z)
  : option (list byte) :=
'(lensDistortionParameters, f) ← read_f64_array 5 f;
'(depthMatrix, f) ← read_f64_array (4 * 4) f;
'(colorMatrix, f) ← read_f64_array (4 * 4) f;
out ← write_f64_array lensDistortionParameters 5 [];
out ← write_f64_array depthMatrix (4 * 4) out;
write_matrix4 colorProjection out.

End IntrinsicFile.

(** ** Kinect/ProjectorBase.cpp and the depth camera's pixel transforms *)

(** [FrameSource::ColorSpace] *)
Inductive ColorSpace : Type := RGB | YPCBCR.

Module ProjectorBase.

Section Geometry.

(** The transformation classes and the lens distortion formula belong to
    other libraries; the projector only composes and applies them.
    [PTransform] is [Geometry::ProjectiveTransformation], [compose a b] is
    [a*=b], [of_extrinsic] the conversion in
    [worldDepthProjection=extrinsicParameters]. *)
Variables PTransform ExtrinsicParameters LensDistortion : Type.
Variable of_extrinsic : ExtrinsicParameters → PTransform.
Variable compose : PTransform → PTransform → PTransform.
Variable inverseTransform : PTransform → Q * Q * Q → Q * Q * Q.
Variable isIdentity : LensDistortion → bool.
Variable undistort : LensDistortion → Q * Q → Q * Q.

Record IntrinsicParameters : Type := mkIP {
  depthLensDistortion : LensDistortion;
  depthProjection : PTransform;
  fx : Q; fy : Q; sk : Q; cx : Q; cy : Q
}.

(** The depth-image point in depth tangent space, as the first lines of
    [undistortDepthPixel] compute it. *)
Definition to_tangent (ips : IntrinsicParameters) (pixel : Q * Q) : Q * Q :=
let dtp1 := ((pixel.2 - cy ips) / fy ips)%Q in
let dtp0 := ((pixel.1 - sk ips * dtp1 - cx ips) / fx ips)%Q in
(dtp0, dtp1).

(** [IntrinsicParameters::undistortDepthPixel(const Point2&)] *)
Definition undistortDepthPixel (ips : IntrinsicParameters) (distortedPixel : Q * Q)
  : Q * Q :=
let dtp1 := ((distortedPixel.2 - cy ips) / fy ips)%Q in
let dtp0 := ((distortedPixel.1 - sk ips * dtp1 - cx ips) / fx ips)%Q in
let utp := undistort (depthLensDistortion ips) (dtp0, dtp1) in
((utp.1 * fx ips + utp.2 * sk ips + cx ips)%Q, (utp.2 * fy ips + cy ips)%Q).

Record t : Type := mk {
  depthSize : Size;
  depthCorrection : option (list (PixelCorrection Q));
  intrinsicParameters : IntrinsicParameters;
  extrinsicParameters : ExtrinsicParameters;
  worldDepthProjection : PTransform;
  colorSpace : ColorSpace;
  triangleDepthRange : Z
}.

(** What the constructor asks of a [FrameSource]. *)
Record FrameSource : Type := mkFS {
  getActualFrameSize_DEPTH : Size;
  getColorSpace : ColorSpace;
  getDepthCorrectionParameters : option (DepthCorrection Q);
  getIntrinsicParameters : IntrinsicParameters;
  getExtrinsicParameters : ExtrinsicParameters
}.

(** [void setDepthFrameSize(const Size&)] *)
Definition setDepthFrameSize (newDepthFrameSize : Size) (pb : t) : t :=
mk newDepthFrameSize (depthCorrection pb) (intrinsicParameters pb)
   (extrinsicParameters pb) (worldDepthProjection pb) (colorSpace pb)
   (triangleDepthRange pb).

(** The body of [setDepthCorrection]: no buffer for a null pointer,
    otherwise the per-pixel table for the current depth frame size. *)
Definition correctionBuffer (dc : option (DepthCorrection Q)) (size : Size)
  : option (option (list (PixelCorrection Q))) :=
match dc with
| Some dc =>
    table ← BSpline.getPixelCorrectionTable dc size; Some (Some table)
| None => Some None
end.

(** [void setDepthCorrection(const FrameSource::DepthCorrection* dc)] *)
Definition setDepthCorrection (dc : option (DepthCorrection Q)) (pb : t)
  : option t :=
table ← correctionBuffer dc (depthSize pb);
Some (mk (depthSize pb) table (intrinsicParameters pb)
         (extrinsicParameters pb) (worldDepthProjection pb) (colorSpace pb)
         (triangleDepthRange pb)).

(** [void setIntrinsicParameters(const FrameSource::IntrinsicParameters&)] *)
Definition setIntrinsicParameters (ips : IntrinsicParameters) (pb : t) : t :=
mk (depthSize pb) (depthCorrection pb) ips (extrinsicParameters pb)
   (compose (of_extrinsic (extrinsicParameters pb)) (depthProjection ips))
   (colorSpace pb) (triangleDepthRange pb).

(** [void setExtrinsicParameters(const FrameSource::ExtrinsicParameters&)] *)
Definition setExtrinsicParameters (eps : ExtrinsicParameters) (pb : t) : t :=
mk (depthSize pb) (depthCorrection pb) (intrinsicParameters pb) eps
   (compose (of_extrinsic eps) (depthProjection (intrinsicParameters pb)))
   (colorSpace pb) (triangleDepthRange pb).

(** [void setColorSpace(const FrameSource::ColorSpace)] *)
Definition setColorSpace (newColorSpace : ColorSpace) (pb : t) : t :=
mk (depthSize pb) (depthCorrection pb) (intrinsicParameters pb)
   (extrinsicParameters pb) (worldDepthProjection pb) newColorSpace
   (triangleDepthRange pb).

(** [void setTriangleDepthRange(FrameSource::DepthPixel)] *)
Definition setTriangleDepthRange (newTriangleDepthRange : Z) (pb : t) : t :=
mk (depthSize pb) (depthCorrection pb) (intrinsicParameters pb)
   (extrinsicParameters pb) (worldDepthProjection pb) (colorSpace pb)
   newTriangleDepthRange.

(** [ProjectorBase::ProjectorBase(FrameSource& frameSource)]: the depth
    correction buffer first, then the parameters and their product. *)
Definition construct (frameSource : FrameSource) : option t :=
let depthSize := getActualFrameSize_DEPTH frameSource in
table ← correctionBuffer (getDepthCorrectionParameters frameSource) depthSize;
let intrinsicParameters := getIntrinsicParameters frameSource in
let extrinsicParameters := getExtrinsicParameters frameSource in
Some (mk depthSize table intrinsicParameters extrinsicParameters
         (compose (of_extrinsic extrinsicParameters)
                  (depthProjection intrinsicParameters))
         (getColorSpace frameSource) 5).

(** [Point projectPoint(const Point& p) const]; reading outside the
    correction buffer is the error. *)
Definition projectPoint (pb : t) (p : Q * Q * Q) : option (Q * Q * Q) :=
let dip := inverseTransform (worldDepthProjection pb) p in
let dip :=
  if negb (isIdentity (depthLensDistortion (intrinsicParameters pb))) then
    let up := undistortDepthPixel (intrinsicParameters pb) (dip.1.1, dip.1.2) in
    (up.1, up.2, dip.2)
  else dip in
match depthCorrection pb with
| Some table =>
    let dipx := Qfloor dip.1.1 in
    let dipy := Qfloor dip.1.2 in
    if (0 <=? dipx) && (wrap32 dipx <? width (depthSize pb))
       && (0 <=? dipy) && (wrap32 dipy <? height (depthSize pb))
    then
      dcPtr ← idx table (wrap32 (wrap32 dipy * width (depthSize pb)
                                 + wrap32 dipx));
      Some (dip.1.1, dip.1.2, ((dip.2 - offset dcPtr) / scale dcPtr)%Q)
    else Some dip
| None => Some dip
end.

(** The calls a user makes on a projector. *)
Inductive call : Type :=
| SetDepthFrameSize (s : Size)
| SetDepthCorrection (dc : option (DepthCorrection Q))
| SetIntrinsicParameters (ips : IntrinsicParameters)
| SetExtrinsicParameters (eps : ExtrinsicParameters)
| SetColorSpace (c : ColorSpace)
| SetTriangleDepthRange (r : Z).

Definition perform (pb : t) (c : call) : option t :=
match c with
| SetDepthFrameSize s => Some (setDepthFrameSize s pb)
| SetDepthCorrection dc => setDepthCorrection dc pb
| SetIntrinsicParameters ips => Some (setIntrinsicParameters ips pb)
| SetExtrinsicParameters eps => Some (setExtrinsicParameters eps pb)
| SetColorSpace c => Some (setColorSpace c pb)
| SetTriangleDepthRange r => Some (setTriangleDepthRange r pb)
end.

Fixpoint perform_all (pb : t) (cs : list call) : option t :=
match cs with
| [] => Some pb
| c :: cs => pb' ← perform pb c; perform_all pb' cs
end.

Definition sets_projection (c : call) : bool :=
match c with
| SetIntrinsicParameters _ | SetExtrinsicParameters _ => true
| _ => false
end.

(** The combined projection is the extrinsic transformation times the
    depth projection. *)
Definition in_step (pb : t) : Prop :=
worldDepthProjection pb
= compose (of_extrinsic (extrinsicParameters pb))
          (depthProjection (intrinsicParameters pb)).

(** The correction buffer has one cell per pixel of the depth frame. *)
Definition buffer_fits (pb : t) : Prop :=
match depthCorrection pb with
| Some table => Z.of_nat (length table) = volume (depthSize pb)
| None => True
end.

End Geometry.

Arguments mkIP {PTransform LensDistortion}.
Arguments depthLensDistortion {PTransform LensDistortion}.
Arguments depthProjection {PTransform LensDistortion}.
Arguments fx {PTransform LensDistortion}.
Arguments fy {PTransform LensDistortion}.
Arguments sk {PTransform LensDistortion}.
Arguments cx {PTransform LensDistortion}.
Arguments cy {PTransform LensDistortion}.
Arguments to_tangent {PTransform LensDistortion}.
Arguments undistortDepthPixel {PTransform LensDistortion}.
Arguments mk {PTransform ExtrinsicParameters LensDistortion}.
Arguments depthSize {PTransform ExtrinsicParameters LensDistortion}.
Arguments depthCorrection {PTransform ExtrinsicParameters LensDistortion}.
Arguments intrinsicParameters {PTransform ExtrinsicParameters LensDistortion}.
Arguments extrinsicParameters {PTransform ExtrinsicParameters LensDistortion}.
Arguments worldDepthProjection {PTransform ExtrinsicParameters LensDistortion}.
Arguments colorSpace {PTransform ExtrinsicParameters LensDistortion}.
Arguments triangleDepthRange {PTransform ExtrinsicParameters LensDistortion}.
Arguments mkFS {PTransform ExtrinsicParameters LensDistortion}.
Arguments getActualFrameSize_DEPTH {PTransform ExtrinsicParameters LensDistortion}.
Arguments getColorSpace {PTransform ExtrinsicParameters LensDistortion}.
Arguments getDepthCorrectionParameters {PTransform ExtrinsicParameters LensDistortion}.
Arguments getIntrinsicParameters {PTransform ExtrinsicParameters LensDistortion}.
Arguments getExtrinsicParameters {PTransform ExtrinsicParameters LensDistortion}.
Arguments setDepthFrameSize {PTransform ExtrinsicParameters LensDistortion}.
Arguments setDepthCorrection {PTransform ExtrinsicParameters LensDistortion}.
Arguments setIntrinsicParameters {PTransform ExtrinsicParameters LensDistortion}.
Arguments setExtrinsicParameters {PTransform ExtrinsicParameters LensDistortion}.
Arguments setColorSpace {PTransform ExtrinsicParameters LensDistortion}.
Arguments setTriangleDepthRange {PTransform ExtrinsicParameters LensDistortion}.
Arguments construct {PTransform ExtrinsicParameters LensDistortion}.
Arguments projectPoint {PTransform ExtrinsicParameters LensDistortion}.
Arguments SetDepthFrameSize {PTransform ExtrinsicParameters LensDistortion}.
Arguments SetDepthCorrection {PTransform ExtrinsicParameters LensDistortion}.
Arguments SetIntrinsicParameters {PTransform ExtrinsicParameters LensDistortion}.
Arguments SetExtrinsicParameters {PTransform ExtrinsicParameters LensDistortion}.
Arguments SetColorSpace {PTransform ExtrinsicParameters LensDistortion}.
Arguments SetTriangleDepthRange {PTransform ExtrinsicParameters LensDistortion}.
Arguments perform {PTransform ExtrinsicParameters LensDistortion}.
Arguments perform_all {PTransform ExtrinsicParameters LensDistortion}.
Arguments sets_projection {PTransform ExtrinsicParameters LensDistortion}.
Arguments in_step {PTransform ExtrinsicParameters LensDistortion}.
Arguments buffer_fits {PTransform ExtrinsicParameters LensDistortion}.

End ProjectorBase.

(** ** RawKinectViewer.cpp *)

Module RawKinectViewer.

(** *** The lists of streaming callbacks; a callback is its address. *)

(** [registerColorCallback], [registerDepthCallback] *)
Definition registerCallback (callbacks : list Z) (newCallback : Z) : list Z :=
callbacks ++ [newCallback].

(** The position at which the loop of [unregisterColorCallback] stops. *)
Fixpoint find_callback (callbacks : list Z) (callback : Z) : option nat :=
match callbacks with
| [] => None
| cb :: rest =>
    if cb =? callback then Some O else S <$> find_callback rest callback
end.

(** [unregisterColorCallback], [unregisterDepthCallback]: the first match
    is overwritten with the last entry, which is then popped. *)
Definition unregisterCallback (callbacks : list Z) (callback : Z) : list Z :=
match find_callback callbacks callback, last callbacks with
| Some i, Some back => take (length callbacks - 1) (<[i := back]> callbacks)
| _, _ => callbacks
end.

(** *** The color background of [colorStreamingCallback].  A color pixel is
    the list of its three components; [colorBackground] holds for each
    pixel the pair (componentwise minimum, componentwise maximum). *)

(** The "empty" interval of [captureBackgroundCallback]. *)
Definition emptyBackground (volume : nat) : list (list Z * list Z) :=
replicate volume ([255; 255; 255], [0; 0; 0]).

(** One pass of [for(int i=0;i<3;++i)] over a background entry. *)
Definition capture_pixel (b : list Z * list Z) (f : list Z) : list Z * list Z :=
(zip_with (λ lo c, if c <? lo then c else lo) b.1 f,
 zip_with (λ hi c, if hi <? c then c else hi) b.2 f).

Fixpoint capture_frame (background : list (list Z * list Z)) (frame : list (list Z))
  : list (list Z * list Z) :=
match background, frame with
| b :: background', f :: frame' =>
    capture_pixel b f :: capture_frame background' frame'
| _, _ => background
end.

(** [isBackground]: every component inside its interval. *)
Definition isBackground (b : list Z * list Z) (f : list Z) : bool :=
forallb (λ x : Z * Z * Z, (x.1.1 <=? x.2) && (x.2 <=? x.1.2))
        (zip (zip b.1 b.2) f).

Fixpoint remove_background (background : list (list Z * list Z))
  (frame : list (list Z)) : list (list Z) :=
match background, frame with
| b :: background', f :: frame' =>
    (if isBackground b f then [0; 0; 0] else f)
    :: remove_background background' frame'
| _, _ => []
end.

(** [colorStreamingCallback] while not paused: the new background, the new
    [backgroundCaptureNumFrames] and the frame posted to the triple
    buffer.  Capturing without a background buffer dereferences null. *)
Definition colorStreamingCallback
  (colorBackground : option (list (list Z * list Z)))
  (backgroundCaptureNumFrames : Z) (frame : list (list Z))
  : option (option (list (list Z * list Z)) * Z * list (list Z)) :=
'(colorBackground, backgroundCaptureNumFrames) ←
  (if 0 <? backgroundCaptureNumFrames then
     background ← colorBackground;
     Some (Some (capture_frame background frame),
           wrap32 (backgroundCaptureNumFrames - 1))
   else Some (colorBackground, backgroundCaptureNumFrames));
Some (colorBackground, backgroundCaptureNumFrames,
      match colorBackground with
      | Some background => remove_background background frame
      | None => frame
      end).

(** *** The depth range sliders and [mapDepth] *)

(** [minDepthSliderValueChangedCallback], [maxDepthSliderValueChangedCallback] *)
Definition minDepthSliderValueChanged (depthValueRange : Q * Q) (newMin : Q)
  : Q * Q :=
if BSpline.Qltb newMin depthValueRange.2 then (newMin, depthValueRange.2)
else ((depthValueRange.2 - 1)%Q, depthValueRange.2).

Definition maxDepthSliderValueChanged (depthValueRange : Q * Q) (newMax : Q)
  : Q * Q :=
if BSpline.Qltb depthValueRange.1 newMax then (depthValueRange.1, newMax)
else (depthValueRange.1, (depthValueRange.1 + 1)%Q).

Definition mapColors : list (list Z) :=
[[255; 0; 0]; [255; 255; 0]; [0; 255; 0]; [0; 255; 255]; [0; 0; 255];
 [255; 0; 255]].

(** Conversion of a floating-point value to [GLubyte] or [int]: the value
    is truncated; it is undefined when the truncated value does not fit. *)
Definition truncate (x : Q) : Z :=
if Qle_bool 0 x then Qfloor x else - Qfloor (- x).

Definition GLubyte (x : Q) : option Z :=
let z := truncate x in if (0 <=? z) && (z <=? 255) then Some z else None.

(** The quotient of two floating-point values: a division by zero gives an
    infinity, and zero by zero is not a number. *)
Inductive quotient := Finite (q : Q) | PosInf | NegInf | NaN.

Definition fdiv (x y : Q) : quotient :=
if Qeq_bool y 0 then
  if Qeq_bool x 0 then NaN else if Qle_bool 0 x then PosInf else NegInf
else Finite (x / y).

(** The branch [d<=0.0f] of [mapDepth]. *)
Definition mapDepth_below : option (list Z) :=
for_opt 0 3
  (λ i result,
     row ← idx mapColors 0; c ← idx row i;
     b ← GLubyte (inject_Z c * (2 # 10))%Q;
     upd result i b)
  [0; 0; 0].

(** The branch [d>=5.0f] of [mapDepth]. *)
Definition mapDepth_above : option (list Z) :=
for_opt 0 3
  (λ i result, row ← idx mapColors 5; c ← idx row i; upd result i c)
  [0; 0; 0].

(** [void mapDepth(const Offset& pixel,float depth,GLubyte* result) const];
    [dist] is what [camDepthPlane.calcDistance] returns for the pixel.
    Both comparisons are false for a [d] that is not a number, and its
    conversion to [int] is undefined. *)
Definition mapDepth (depthPlaneValid : bool) (dist depthPlaneDistMax : Q)
  (depthValueRange : Q * Q) (depth : Q) : option (list Z) :=
if depthPlaneValid then
  if Qle_bool 0 dist then
    col ← (if BSpline.Qltb dist depthPlaneDistMax then
             c ← GLubyte (dist * 255 / depthPlaneDistMax + (1 # 2))%Q;
             Some (255 - c)
           else Some 0);
    Some [col; col; 255]
  else
    col ← (if BSpline.Qltb (- dist) depthPlaneDistMax then
             c ← GLubyte (- dist * 255 / depthPlaneDistMax + (1 # 2))%Q;
             Some (255 - c)
           else Some 0);
    Some [255; col; col]
else
  match fdiv ((depth - depthValueRange.1) * 5)
             (depthValueRange.2 - depthValueRange.1) with
  | NaN => None
  | NegInf => mapDepth_below
  | PosInf => mapDepth_above
  | Finite d =>
      if Qle_bool d 0 then mapDepth_below
      else if Qle_bool 5 d then mapDepth_above
      else
        let i0 := truncate d in
        let d := (d - inject_Z i0)%Q in
        for_opt 0 3
          (λ i result,
             row0 ← idx mapColors i0; c0 ← idx row0 i;
             row1 ← idx mapColors (i0 + 1); c1 ← idx row1 i;
             b ← GLubyte ((inject_Z c0 * (1 - d) + inject_Z c1 * d)
                          * (d * (8 # 10) + (2 # 10)))%Q;
             upd result i b)
          [0; 0; 0]
  end.

End RawKinectViewer.

(** ** BackgroundViewer: the files that go with a background file *)

Module BackgroundViewer.
Import Stdlib.Strings.Ascii.

(** A file name is the list of the characters before its terminating NUL. *)
Definition chars (s : string) : list ascii := String.list_ascii_of_string s.

(** [for(const char* bfnPtr=backgroundFileName;*bfnPtr!='\0';++bfnPtr)]:
    [pos] is the offset of [bfnPtr], the result the offset of
    [fileNameStart]. *)
Fixpoint scan_slash (rest : list ascii) (pos fileNameStart : nat) : nat :=
match rest with
| [] => fileNameStart
| c :: rest' =>
    scan_slash rest' (S pos)
      (if Ascii.eqb c "/" then S pos else fileNameStart)
end.

Definition fileNameStart (backgroundFileName : list ascii) : nat :=
scan_slash backgroundFileName 0 0.

(** [for(serialEnd=serialStart;*serialEnd!='\0'&&*serialEnd!='.';++serialEnd)],
    as the offset of [serialEnd] from [serialStart]. *)
Fixpoint serialEnd (serialStart : list ascii) : nat :=
match serialStart with
| [] => 0
| c :: rest => if Ascii.eqb c "." then 0 else S (serialEnd rest)
end.

(** The camera serial number taken from the background file name; empty
    when the name does not have the expected form. *)
Definition serialNumber (backgroundFileName : list ascii) : list ascii :=
let file := drop (fileNameStart backgroundFileName) backgroundFileName in
if bool_decide (take 11 file = chars "Background-") then
  let serialStart := drop 11 file in
  let n := serialEnd serialStart in
  if negb (n =? 0)%nat
     && bool_decide (drop n serialStart = chars ".background")
  then take n serialStart else []
else [].

(** The name of the depth correction file that is tried; none when the
    serial number is empty. *)
Definition depthCorrectionFileName (backgroundFileName : list ascii)
  : option (list ascii) :=
match serialNumber backgroundFileName with
| [] => None
| serial =>
    Some (take (fileNameStart backgroundFileName) backgroundFileName
          ++ chars "DepthCorrection-" ++ serial ++ chars ".dat")
end.

(** *** The editing thread: pushing background pixels out of a sphere *)

Definition Point : Type := Q * Q * Q.

Definition origin : Point := (0, 0, 0)%Q.

(** [p-q], [p+v], [v*s], [v*w] (the dot product) and [Geometry::sqr] *)
Definition sub (p q : Point) : Point :=
(p.1.1 - q.1.1, p.1.2 - q.1.2, p.2 - q.2)%Q.

Definition add (p v : Point) : Point :=
(p.1.1 + v.1.1, p.1.2 + v.1.2, p.2 + v.2)%Q.

Definition scale (v : Point) (s : Q) : Point :=
(v.1.1 * s, v.1.2 * s, v.2 * s)%Q.

Definition dot (v w : Point) : Q :=
(v.1.1 * w.1.1 + v.1.2 * w.1.2 + v.2 * w.2)%Q.

Definition sqr (v : Point) : Q := dot v v.

Definition sqrDist (p q : Point) : Q := sqr (sub p q).

(** [Scalar det=Math::sqr(ph)-(Geometry::sqr(oc)-Math::sqr(radius))*d2;] for
    the ray from the origin through [p]. *)
Definition discriminant (center : Point) (radius : Q) (p : Point) : Q :=
let start := origin in
let dir := sub p start in
let d2 := sqr dir in
let oc := sub start center in
let ph := dot oc dir in
(ph * ph - (sqr oc - radius * radius) * d2)%Q.

(** What the loop body of [editingThreadMethod] does with the unprojected
    pixel [p]: nothing, or the point handed to [projectPoint]; for a pixel
    at the origin the quotient is zero by zero. *)
Inductive edit := Untouched | Moved (exit : Point) | Undefined.

Section Editing.
Variable sqrt : Q → Q.

Definition editPixel (center : Point) (radius : Q) (p : Point) : edit :=
if Qle_bool (sqrDist p center) (radius * radius) then
  let start := origin in
  let dir := sub p start in
  let d2 := sqr dir in
  let oc := sub start center in
  let ph := dot oc dir in
  let det := discriminant center radius p in
  if Qle_bool 0 det then
    let det := sqrt det in
    if Qeq_bool d2 0 then Undefined
    else
      let lambda := ((- ph + det) / d2)%Q in
      Moved (add start (scale dir lambda))
  else Untouched
else Untouched.

End Editing.

End BackgroundViewer.

(** ** TiePointTool: the refined grid corner *)

Module TiePointTool.

Definition Point : Type := Q * Q.

(** [Geometry::mid] and [Geometry::sqrDist] *)
Definition mid (p q : Point) : Point :=
((p.1 + q.1) / 2, (p.2 + q.2) / 2)%Q.

Definition sqrDist (p q : Point) : Q :=
((p.1 - q.1) * (p.1 - q.1) + (p.2 - q.2) * (p.2 - q.2))%Q.

(** The determinant and the two line parameters of
    [cornerExtractionCallback]. *)
Definition det (p0 p1 p2 p3 : Point) : Q :=
((p2.1 - p0.1) * (p1.2 - p3.2) - (p1.1 - p3.1) * (p2.2 - p0.2))%Q.

Definition alpha (p0 p1 p2 p3 : Point) : Q :=
(((p1.2 - p3.2) * (p1.1 - p0.1) + (p3.1 - p1.1) * (p1.2 - p0.2))
 / det p0 p1 p2 p3)%Q.

Definition beta (p0 p1 p2 p3 : Point) : Q :=
(((p0.2 - p2.2) * (p1.1 - p0.1) + (p2.1 - p0.1) * (p1.2 - p0.2))
 / det p0 p1 p2 p3)%Q.

(** [p0+(p2-p0)*alpha] and [p1+(p3-p1)*beta] *)
Definition along (p q : Point) (t : Q) : Point :=
(p.1 + (q.1 - p.1) * t, p.2 + (q.2 - p.2) * t)%Q.

(** The body of the last loop of [cornerExtractionCallback] for a corner
    with four links: the corner that is stored, if any.  With a zero
    determinant the quotients are not finite and the distance test fails. *)
Definition refineCorner (corner p0 p1 p2 p3 : Point) : option Point :=
if Qeq_bool (det p0 p1 p2 p3) 0 then None
else
  let intersect :=
    mid (along p0 p2 (alpha p0 p1 p2 p3)) (along p1 p3 (beta p0 p1 p2 p3)) in
  if BSpline.Qltb (sqrDist intersect corner) 4 then Some (mid corner intersect)
  else None.

End TiePointTool.

(** ** OrbbecSDKContext: the reference-counted singleton *)

Module OrbbecSDKContext.

(** [refCount], whether [context] is non-null, and the number of
    [ob::Context] objects that exist. *)
Record t := mk { refCount : Z; context : bool; contexts : Z }.

(** [OrbbecSDKContext::OrbbecSDKContext(void)] *)
Definition theContext : t := mk 0 false 0.

(** [void ref(void)] *)
Definition ref (c : t) : t :=
if refCount c =? 0 then mk (wrap32 (refCount c + 1)) true (contexts c + 1)
else mk (wrap32 (refCount c + 1)) (context c) (contexts c).

(** [void unref(void)]; deleting a null pointer does nothing. *)
Definition unref (c : t) : t :=
if wrap32 (refCount c - 1) =? 0
then mk (wrap32 (refCount c - 1)) false
        (if context c then contexts c - 1 else contexts c)
else mk (wrap32 (refCount c - 1)) (context c) (contexts c).

(** An [OrbbecSDKContextPtr] being created ([true]) or destroyed. *)
Definition run (ops : list bool) (c : t) : t :=
foldl (λ (c : t) (acquire : bool), if acquire then ref c else unref c) c ops.

(** The number of pointers that exist after [ops]. *)
Definition pointers (ops : list bool) : Z :=
foldl (λ (n : Z) (acquire : bool), if acquire then n + 1 else n - 1) 0 ops.

End OrbbecSDKContext.

(** ** DepthCorrectionTool: the regression of one pixel *)

Module DepthCorrectionTool.

(** What the "Calibrate" loop uses of a [DepthFrame] at one pixel: the
    averaged depth value there and the best-fitting plane. *)
Record DepthFrame := mkDF {
  actual : Q;
  normal : Q * Q * Q;
  offset : Q
}.

(** [double expected=(plane.getOffset()-dip[0]*normal[0]-dip[1]*normal[1])
    /normal[2];] *)
Definition expected (dip : Q * Q) (df : DepthFrame) : Q :=
((offset df - dip.1 * (normal df).1.1 - dip.2 * (normal df).1.2)
 / (normal df).2)%Q.

(** [ata], [atb] and [numFrames] *)
Record Regression := mkR {
  ata00 : Q; ata01 : Q; ata10 : Q; ata11 : Q;
  atb0 : Q; atb1 : Q;
  numFrames : Z
}.

(** The body of the loop over [depthFrames]. *)
Definition accumulate (dip : Q * Q) (r : Regression) (df : DepthFrame)
  : Regression :=
if negb (Qeq_bool (actual df) 2047) then
  mkR (ata00 r + actual df * actual df) (ata01 r + actual df)
      (ata10 r + actual df) (ata11 r + 1)
      (atb0 r + actual df * expected dip df) (atb1 r + expected dip df)
      (wrap32 (numFrames r + 1))
else r.

Definition regression (dip : Q * Q) (depthFrames : list DepthFrame)
  : Regression :=
foldl (accumulate dip) (mkR 0 0 0 0 0 0 0) depthFrames.

(** The depth values that enter the regression. *)
Definition actuals (depthFrames : list DepthFrame) : list Q :=
actual <$> filter (λ df, negb (Qeq_bool (actual df) 2047) = true) depthFrames.

End DepthCorrectionTool.

(** ** CalibrateCameras: the linear system of the color projection *)

Module CalibrateCameras.

(** A line of the tie point file: a world point and a pixel. *)
Record Entry := mkEntry { x : Q; y : Q; z : Q; s : Q; t : Q }.

(** [eq[0]] and [eq[1]] for an entry whose pixel is already divided by the
    image size. *)
Definition eq0 (x y z s : Q) : list Q :=
[x; y; z; 1; 0; 0; 0; 0; - s * x; - s * y; - s * z; - s]%Q.

Definition eq1 (x y z t : Q) : list Q :=
[0; 0; 0; 0; x; y; z; 1; - t * x; - t * y; - t * z; - t]%Q.

(** [for i, for j: a.set(i,j,a(i,j)+eq[row][i]*eq[row][j])]: every cell is
    updated once, from its own old value. *)
Definition accumulate (a : list (list Q)) (eq : list Q) : list (list Q) :=
zip_with (λ row ei, zip_with (λ aij ej, aij + ei * ej)%Q row eq) a eq.

(** [Math::Matrix a(12,12,0.0)] after the loop over the file. *)
Definition system (imgSize : Q * Q) (entries : list Entry) : list (list Q) :=
foldl
  (λ a e,
     let s := (s e / imgSize.1)%Q in
     let t := (t e / imgSize.2)%Q in
     accumulate (accumulate a (eq0 (x e) (y e) (z e) s))
                (eq1 (x e) (y e) (z e) t))
  (replicate 12 (replicate 12 0%Q)) entries.

(** The product of a matrix row, or of a vector, with a vector. *)
Definition dot (v w : list Q) : Q := foldr Qplus 0%Q (zip_with Qmult v w).

End CalibrateCameras.

(* ===================================================================== *)
(** * Part II: the properties                                             *)
(* ===================================================================== *)

Section FrameBufferAssign.
Import FrameBuffer.

Lemma release_is_Some (h : gmap Z Z) (p : Z) :
  is_Some (h !! p) → is_Some (release h p).
Proof.
  intros [c Hc]. unfold release, unref. rewrite Hc. simpl. eauto.
Qed.

Lemma release_lookup_ne (h h' : gmap Z Z) (p q : Z) :
  release h p = Some h' → p ≠ q → h' !! q = h !! q.
Proof.
  unfold release, unref. intros Hr Hne.
  destruct (h !! p) as [c|] eqn:Hc; simpl in Hr; [|discriminate].
  injection Hr as <-.
  destruct (wrap32 (c - 1) =? 0).
  - rewrite lookup_delete_ne by done. by rewrite lookup_insert_ne.
  - by rewrite lookup_insert_ne.
Qed.

(** C10. Assignment between two handles with the same payload pointer,
    two invalid handles included, changes nothing: the target keeps its
    size and its time stamp and no counter moves.  Assignment between
    handles with distinct payloads, both backed by the store, succeeds and
    copies size, payload pointer and time stamp. *)
Theorem assign_same_payload_keeps_target (h : gmap Z Z) (this source : t) :
  (buffer this = buffer source → assign h this source = Some (h, this))
  ∧ (buffer this ≠ buffer source → backed h this → backed h source →
     ∃ h', assign h this source
           = Some (h', mk (size source) (buffer source) (timeStamp source))).
Proof.
  split.
  - intros Heq. unfold assign. rewrite Heq, Z.eqb_refl. reflexivity.
  - intros Hne Hthis Hsrc. unfold assign.
    destruct (Z.eqb_spec (buffer this) (buffer source)) as [|_]; [done|].
    simpl.
    assert (∃ h1, (if negb (buffer this =? 0) then release h (buffer this)
                   else Some h) = Some h1
                  ∧ (buffer source ≠ 0 → is_Some (h1 !! buffer source)))
      as (h1 & -> & Hh1).
    { destruct (Z.eqb_spec (buffer this) 0) as [Hz|Hnz]; simpl.
      - exists h. split; [done|]. intros ?. by destruct Hsrc.
      - destruct Hthis as [|Hlive]; [done|].
        destruct (release_is_Some _ _ Hlive) as [h1 Hh1].
        exists h1. split; [done|]. intros ?.
        rewrite (release_lookup_ne _ _ _ _ Hh1) by done.
        by destruct Hsrc. }
    simpl.
    destruct (Z.eqb_spec (buffer source) 0) as [Hz|Hnz]; simpl; [eauto|].
    destruct (Hh1 Hnz) as [c Hc]. unfold ref. rewrite Hc. simpl. eauto.
Qed.

Lemma assign_same_payload_keeps_target_witness :
  assign ∅ (mk (mkSize 0 0) 0 (1 # 2)) (mk (mkSize 0 0) 0 (7 # 2))
    = Some (∅, mk (mkSize 0 0) 0 (1 # 2))
  ∧ ∃ h', assign {[ 16 := 1 ]} (mk (mkSize 0 0) 0 (1 # 2))
                 (mk (mkSize 640 480) 16 (7 # 2))
          = Some (h', mk (mkSize 640 480) 16 (7 # 2)).
Proof.
  split.
  - apply (proj1 (assign_same_payload_keeps_target ∅ _ _)). reflexivity.
  - apply (proj2 (assign_same_payload_keeps_target {[ 16 := 1 ]}
                    (mk (mkSize 0 0) 0 (1 # 2))
                    (mk (mkSize 640 480) 16 (7 # 2)))).
    + simpl. lia.
    + left. reflexivity.
    + right. simpl. rewrite lookup_singleton_eq. eauto.
Defined.

End FrameBufferAssign.

(** ** Loops and little-endian reads *)

#[local] Arguments read_le : simpl never.
#[local] Arguments le_split : simpl never.
#[local] Arguments le_combine : simpl never.
#[local] Arguments idx : simpl never.
#[local] Arguments upd : simpl never.
#[local] Arguments wrap32 : simpl never.
#[local] Arguments wrap16 : simpl never.

(** Reduce a bind on a computed [Some] without unfolding anything else. *)
Ltac obind := cbn [mbind option_bind].

(** Unroll the loops whose bounds are literals. *)
Ltac unroll_for :=
  repeat match goal with
  | |- context [for_opt ?lo ?hi ?b ?s] =>
      let n := eval vm_compute in (Z.to_nat (hi - lo)) in
      change (for_opt lo hi b s) with (iterate_opt n lo b s)
  | |- context [for_loop ?lo ?hi ?b ?s] =>
      let n := eval vm_compute in (Z.to_nat (hi - lo)) in
      change (for_loop lo hi b s) with (iterate n lo b s)
  end;
  cbn [iterate_opt iterate].

Lemma iterate_opt_Some {S : Type} (n : nat) (i : Z) (body : Z → S → S) (s : S) :
  iterate_opt n i (λ i s, Some (body i s)) s = Some (iterate n i body s).
Proof. revert i s. induction n as [|n IH]; intros i s; simpl; [done|]. apply IH. Qed.

Lemma read_le_app (n : nat) (v : Z) (rest : list byte) :
  0 ≤ v < 2 ^ (Z.of_nat n * 8) →
  read_le n (le_split n v ++ rest) = Some (v, rest).
Proof.
  intros Hv. unfold read_le, read_bytes.
  rewrite length_app, length_le_split.
  destruct (Nat.leb_spec n (n + length rest)) as [_|]; [|lia].
  simpl.
  rewrite take_app_length', drop_app_length'
    by (symmetry; apply length_le_split).
  rewrite le_combine_split, Z.mod_small by done. reflexivity.
Qed.

Lemma read_le_short (n : nat) (f : list byte) :
  (length f < n)%nat → read_le n f = None.
Proof.
  intros Hlen. unfold read_le, read_bytes.
  destruct (Nat.leb_spec n (length f)); [lia|done].
Qed.

Lemma idx_app_middle {A : Type} (pre suf : list A) (x : A) :
  idx (pre ++ x :: suf) (Z.of_nat (length pre)) = Some x.
Proof.
  unfold idx. rewrite length_app. simpl.
  destruct (Z.leb_spec 0 (Z.of_nat (length pre))); [|lia].
  destruct (Z.ltb_spec (Z.of_nat (length pre))
              (Z.of_nat (length pre + Datatypes.S (length suf)))); [|lia].
  simpl. rewrite Nat2Z.id. apply list_lookup_middle. reflexivity.
Qed.

Lemma upd_app_middle {A : Type} (pre suf : list A) (x y : A) :
  upd (pre ++ x :: suf) (Z.of_nat (length pre)) y = Some (pre ++ y :: suf).
Proof.
  unfold upd. rewrite length_app. simpl.
  destruct (Z.leb_spec 0 (Z.of_nat (length pre))); [|lia].
  destruct (Z.ltb_spec (Z.of_nat (length pre))
              (Z.of_nat (length pre + Datatypes.S (length suf)))); [|lia].
  simpl. rewrite Nat2Z.id.
  replace (length pre) with (length pre + 0)%nat at 1 by lia.
  rewrite insert_app_r. reflexivity.
Qed.

(** ** Depth correction file format (C7) *)

Section DepthCorrectionCodec.
Import DepthCorrectionIO.

Lemma write_loop (pre suf : list (PixelCorrection Z)) (out : list byte) :
  iterate_opt (length suf) (Z.of_nat (length pre))
    (λ i out, cp ← idx (pre ++ suf) i;
              Some (write_f32 (offset cp) (write_f32 (scale cp) out))) out
  = Some (out ++ concat (map enc_cp suf)).
Proof.
  revert pre out. induction suf as [|cp suf IH]; intros pre out; simpl.
  - by rewrite app_nil_r.
  - rewrite idx_app_middle. simpl.
    replace (pre ++ cp :: suf) with ((pre ++ [cp]) ++ suf)
      by (by rewrite <- app_assoc).
    replace (Z.of_nat (length pre) + 1) with (Z.of_nat (length (pre ++ [cp])))
      by (rewrite length_app; simpl; lia).
    rewrite IH. unfold write_f32, enc_cp. by rewrite <- !app_assoc.
Qed.

Lemma read_loop (pre suf junk : list (PixelCorrection Z)) (rest : list byte) :
  length junk = length suf →
  Forall pc_bits suf →
  iterate_opt (length suf) (Z.of_nat (length pre))
    (λ i '(cps, f),
       '(sc, f) ← read_f32 f;
       '(off, f) ← read_f32 f;
       cps ← upd cps i (mkPC sc off);
       Some (cps, f))
    (pre ++ junk, concat (map enc_cp suf) ++ rest)
  = Some (pre ++ suf, rest).
Proof.
  revert pre junk. induction suf as [|cp suf IH]; intros pre junk Hlen Hbits.
  - destruct junk; [|done]. reflexivity.
  - destruct junk as [|j junk]; [done|]. simpl in Hlen.
    apply Forall_cons in Hbits as [[Hs Ho] Hbits].
    cbn [length iterate_opt map concat]. unfold enc_cp at 1, read_f32.
    rewrite <- !app_assoc.
    rewrite read_le_app by (simpl; lia). obind.
    rewrite read_le_app by (simpl; lia). obind.
    rewrite upd_app_middle. obind.
    replace (pre ++ mkPC (scale cp) (offset cp) :: junk)
      with ((pre ++ [cp]) ++ junk)
      by (rewrite <- app_assoc; by destruct cp).
    replace (Z.of_nat (length pre) + 1) with (Z.of_nat (length (pre ++ [cp])))
      by (rewrite length_app; simpl; lia).
    rewrite IH by (done || lia). by rewrite <- app_assoc.
Qed.

Lemma layout_length (dc : DepthCorrection Z) :
  Z.of_nat (length (layout dc))
  = 12 + 8 * Z.of_nat (length (controlPoints dc)).
Proof.
  unfold layout. rewrite !length_app, !length_le_split.
  assert (length (concat (map enc_cp (controlPoints dc)))
          = (8 * length (controlPoints dc))%nat) as ->; [|lia].
  induction (controlPoints dc) as [|cp l IH]; [done|].
  cbn [map concat length]. unfold enc_cp at 1.
  rewrite !length_app, !length_le_split, IH. lia.
Qed.

(** C7. For a depth correction object (32-bit fields, control point array
    of the size its constructors allocate, 32-bit float patterns), [write]
    emits the three [u32] header fields and then one (scale, offset) pair of
    [f32] per control point, in array order, that is 12 bytes and 8 more for
    each of the [(segY+degree)*(segX+degree)] control points (the product
    as [unsigned int] computes it); the file constructor reads this back to
    an equal object, leaving the rest of the file, and writing the object
    read back gives the same bytes. *)
Theorem depth_correction_write_read_roundtrip
  (dc : DepthCorrection Z) (out rest : list byte) :
  dc_wf dc → Forall pc_bits (controlPoints dc) →
  write dc out = Some (out ++ layout dc)
  ∧ Z.of_nat (length (layout dc))
    = 12 + 8 * numControlPoints (degree dc) (numSegments dc)
  ∧ read (layout dc ++ rest) = Some (dc, rest)
  ∧ ('(dc', _) ← read (layout dc ++ rest); write dc' out) = write dc out.
Proof.
  intros (Hdeg & Hw & Hh & Hlen) Hbits.
  assert (write dc out = Some (out ++ layout dc)) as Hwrite.
  { unfold write, for_opt. rewrite Z.sub_0_r, <- Hlen, Nat2Z.id.
    pose proof (write_loop [] (controlPoints dc)) as Hloop.
    change (Z.of_nat (length [])) with 0 in Hloop.
    cbn [app] in Hloop. rewrite Hloop.
    unfold write_u32, layout.
    by rewrite <- !app_assoc. }
  assert (read (layout dc ++ rest) = Some (dc, rest)) as Hread.
  { unfold read, layout, read_u32. rewrite <- !app_assoc.
    rewrite read_le_app by (simpl; lia). obind.
    rewrite read_le_app by (simpl; lia). obind.
    rewrite read_le_app by (simpl; lia). obind.
    destruct dc as [deg [w h] cps]. simpl in *.
    unfold for_opt. rewrite Z.sub_0_r, <- Hlen, Nat2Z.id.
    pose proof (read_loop [] cps (replicate (length cps) (mkPC 0 0)) rest)
      as Hloop.
    change (Z.of_nat (length [])) with 0 in Hloop.
    cbn [app] in Hloop.
    rewrite Hloop by (by rewrite ?length_replicate). reflexivity. }
  split; [done|]. split; [by rewrite layout_length, Hlen|].
  split; [done|]. by rewrite Hread.
Qed.

Lemma depth_correction_write_read_roundtrip_witness :
  let dc := mkDC 1 (mkSize 1 1) [mkPC 1 2; mkPC 3 4; mkPC 5 6; mkPC 7 8] in
  write dc [] = Some ([] ++ layout dc)
  ∧ Z.of_nat (length (layout dc)) = 12 + 8 * 4
  ∧ read (layout dc ++ [Byte.xff]) = Some (dc, [Byte.xff])
  ∧ ('(dc', _) ← read (layout dc ++ [Byte.xff]); write dc' []) = write dc [].
Proof.
  apply (depth_correction_write_read_roundtrip
           (mkDC 1 (mkSize 1 1) [mkPC 1 2; mkPC 3 4; mkPC 5 6; mkPC 7 8])
           [] [Byte.xff]).
  - unfold dc_wf. simpl. vm_compute. intuition discriminate.
  - repeat constructor; vm_compute; discriminate.
Defined.

End DepthCorrectionCodec.

(** ** Lens distortion codec (C8) *)

Section LensDistortionCodec.
Import LensDistortionIO.

Lemma read_into_app (k : Z) (pv : list Z) (v : Z) (rest : list byte) :
  0 ≤ v < 2 ^ 64 →
  read_into k (pv, le_split 8 v ++ rest)
  = (pv' ← upd pv k v; Some (pv', rest)).
Proof.
  intros Hv. unfold read_into, read_f64.
  rewrite read_le_app by (simpl; lia). reflexivity.
Qed.

Ltac eval_upd :=
  match goal with
  | |- context [upd ?l ?i ?x] =>
      let r := eval vm_compute in (upd l i x) in
      change (upd l i x) with r
  end; obind.

Ltac eval_idx :=
  match goal with
  | |- context [idx ?l ?i] =>
      let r := eval vm_compute in (idx l i) in
      change (idx l i) with r
  end; obind.

Ltac read_one := rewrite read_into_app by lia; eval_upd.

(** C8. In the newer format [readLensDistortion] consumes exactly ten
    little-endian [f64]: cx, cy, kappa0..kappa5, rho0, rho1.  In the legacy
    format it consumes seven (cx, cy, kappa0..kappa2, rho0, rho1) and sets
    kappa3..kappa5 to zero.  [writeLensDistortion] always appends the ten
    parameters in the newer order. *)
Theorem lens_distortion_codec
  (cx cy k0 k1 k2 k3 k4 k5 r0 r1 : Z) (rest out : list byte) :
  Forall (λ v, 0 ≤ v < 2 ^ 64) [cx; cy; k0; k1; k2; k3; k4; k5; r0; r1] →
  readLensDistortion (f64s [cx; cy; k0; k1; k2; k3; k4; k5; r0; r1] ++ rest) true
  = Some (mkLD (cx, cy) [k0; k1; k2; k3; k4; k5] [r0; r1], rest)
  ∧ readLensDistortion (f64s [cx; cy; k0; k1; k2; r0; r1] ++ rest) false
    = Some (mkLD (cx, cy) [k0; k1; k2; 0; 0; 0] [r0; r1], rest)
  ∧ writeLensDistortion (mkLD (cx, cy) [k0; k1; k2; k3; k4; k5] [r0; r1]) out
    = Some (out ++ f64s [cx; cy; k0; k1; k2; k3; k4; k5; r0; r1]).
Proof.
  intros Hall. repeat (apply Forall_cons in Hall as [? Hall]).
  unfold readLensDistortion, f64s. cbn [map concat].
  rewrite <- !app_assoc. cbn [app].
  split; [|split].
  - repeat (unroll_for; repeat read_one). reflexivity.
  - repeat (unroll_for; repeat first [read_one | eval_upd]). reflexivity.
  - unfold writeLensDistortion, getParameterVector, write_f64.
    cbn [center kappas rhos fst snd app]. unroll_for. repeat eval_idx.
    rewrite <- !app_assoc. reflexivity.
Qed.

Lemma lens_distortion_codec_witness :
  readLensDistortion (f64s [1; 2; 3; 4; 5; 6; 7; 8; 9; 10] ++ [Byte.xff]) true
  = Some (mkLD (1, 2) [3; 4; 5; 6; 7; 8] [9; 10], [Byte.xff])
  ∧ readLensDistortion (f64s [1; 2; 3; 4; 5; 9; 10] ++ [Byte.xff]) false
    = Some (mkLD (1, 2) [3; 4; 5; 0; 0; 0] [9; 10], [Byte.xff])
  ∧ writeLensDistortion (mkLD (1, 2) [3; 4; 5; 6; 7; 8] [9; 10]) []
    = Some ([] ++ f64s [1; 2; 3; 4; 5; 6; 7; 8; 9; 10]).
Proof.
  apply (lens_distortion_codec 1 2 3 4 5 6 7 8 9 10 [Byte.xff] []).
  repeat constructor; vm_compute; discriminate.
Defined.

End LensDistortionCodec.

(** ** Background capture (C6) *)

Section BackgroundCapture.
Import CompressDepthFile.

Lemma capture_pixel_min (bf df : Z) :
  2 ≤ df < 2 ^ 16 → capture_pixel bf df = Z.min (df - 2) bf.
Proof.
  intros Hdf. unfold capture_pixel, wrap16.
  rewrite Z.mod_small by lia.
  destruct (Z.ltb_spec (df - 2) bf); lia.
Qed.

Lemma capture_frame_lookup (background frame : list Z) (k : nat) (bf df : Z) :
  background !! k = Some bf → frame !! k = Some df →
  capture_frame background frame !! k = Some (capture_pixel bf df).
Proof.
  revert frame k. induction background as [|b background IH];
    intros [|d frame] [|k] Hb Hd; simplify_eq/=; eauto.
Qed.

Lemma capture_frame_length (background frame : list Z) :
  length (capture_frame background frame) = length background.
Proof.
  revert frame. induction background as [|b background IH];
    intros [|d frame]; simpl; auto.
Qed.

Lemma spec_background_min_out (d bf : Z) (raws : list Z) :
  foldr (λ df acc, Z.min (df - 2) acc) (Z.min (d - 2) bf) raws
  = Z.min (d - 2) (foldr (λ df acc, Z.min (df - 2) acc) bf raws).
Proof. induction raws as [|r raws IH]; simpl; [done|]. rewrite IH. lia. Qed.

(** Away from the underflow the capture is the minimum the specification
    describes: with every raw depth at least 2, each background cell ends
    as the minimum of the raw depths minus 2 and its initial value. *)
Lemma capture_is_minimum_without_underflow
  (frames : list (list Z)) (n : Z) (background : list Z) (k : nat) (bf : Z) :
  Z.of_nat (length frames) ≤ n < 2 ^ 32 →
  Forall (λ frame, length frame = length background
                   ∧ Forall (λ df, 2 ≤ df < 2 ^ 16) frame) frames →
  background !! k = Some bf →
  (process n background frames).1 !! k
  = Some (foldr (λ df acc, Z.min (df - 2) acc) bf (pixel_history k frames)).
Proof.
  revert n background bf.
  induction frames as [|frame frames IH]; intros n background bf Hn Hall Hk.
  - done.
  - apply Forall_cons in Hall as [[Hlen Hraw] Hall]. simpl in Hn.
    cbn [process]. destruct (Z.ltb_spec 0 n) as [_|]; [|lia].
    destruct (process (wrap32 (n - 1)) (capture_frame background frame) frames)
      as [bg out] eqn:Hp. cbn [fst].
    assert (is_Some (frame !! k)) as [df Hdf].
    { apply lookup_lt_is_Some. rewrite Hlen. by eapply lookup_lt_Some. }
    assert (2 ≤ df < 2 ^ 16) as Hdf2.
    { eapply Forall_lookup_1 in Hraw; [exact Hraw|exact Hdf]. }
    specialize (IH (wrap32 (n - 1)) (capture_frame background frame)
                  (capture_pixel bf df)).
    rewrite Hp in IH. cbn [fst] in IH. rewrite IH.
    + unfold pixel_history. cbn [omap list_omap]. rewrite Hdf.
      cbn [foldr]. rewrite capture_pixel_min by done.
      by rewrite spec_background_min_out.
    + unfold wrap32. rewrite Z.mod_small by lia. lia.
    + eapply Forall_impl; [exact Hall|]. intros f [? ?].
      by rewrite capture_frame_length.
    + by apply capture_frame_lookup.
Qed.

(** After the capture, a pixel becomes [invalidDepth] exactly when its raw
    depth is at least the background value, and is left alone otherwise. *)
Lemma remove_background_lookup (frame background : list Z) (k : nat) (df bf : Z) :
  frame !! k = Some df → background !! k = Some bf →
  remove_background frame background !! k
  = Some (if bf <=? df then invalidDepth else df).
Proof.
  revert background k. induction frame as [|d frame IH];
    intros [|b background] [|k] Hd Hb; simplify_eq/=; eauto.
Qed.

(** C6. The capture does not compute the minimum of the raw depths minus 2
    once a raw depth below 2 occurs.  One pixel, raw depths 5, 0, 10 over
    three captured frames: the comparison is made on [int]s, so the raw
    depth 0 replaces the background 3 by -2 stored as 65534, and the next
    frame replaces that by 8.  The minimum of the raw depths minus 2 is -2,
    and 3 if the subtraction is read in [unsigned short]. *)
Theorem capture_underflow_breaks_minimum :
  (main (mkSize 1 1) [[5]; [0]; [10]]).1 = [8]
  ∧ (main (mkSize 1 1) [[5]; [0]]).1 = [65534]
  ∧ spec_background_pixel (pixel_history 0 [[5]; [0]; [10]]) = -2
  ∧ foldr (λ df acc, Z.min (wrap16 (df - 2)) acc) invalidDepth
          (pixel_history 0 [[5]; [0]; [10]]) = 3.
Proof. repeat split; vm_compute; reflexivity. Qed.

End BackgroundCapture.

(** ** Handshake of the multiplexed source (C9) *)

Section Handshake.
Import MultiplexedFrameSource.

Lemma length_encode (e : Pipe.Endianness) (n : nat) (v : Z) :
  length (Pipe.encode e n v) = n.
Proof. destruct e; simpl; rewrite ?length_rev; apply length_le_split. Qed.

Lemma decode_encode (e : Pipe.Endianness) (n : nat) (v : Z) :
  0 ≤ v < 2 ^ (Z.of_nat n * 8) → Pipe.decode e (Pipe.encode e n v) = v.
Proof.
  intros Hv. destruct e; unfold Pipe.decode, Pipe.encode;
    rewrite ?rev_involutive, le_combine_split; by apply Z.mod_small.
Qed.

Lemma decode_swapped (e : Pipe.Endianness) (n : nat) (v : Z) :
  0 ≤ v < 2 ^ (Z.of_nat n * 8) →
  Pipe.decode e (rev (Pipe.encode (Pipe.opposite e) n v)) = v.
Proof.
  intros Hv. destruct e; unfold Pipe.decode, Pipe.encode, Pipe.opposite;
    rewrite ?rev_involutive, le_combine_split; by apply Z.mod_small.
Qed.

(** A server of the other byte order sends the marker so that it reads as
    the byte-reversed value. *)
Lemma reversed_marker (host : Pipe.Endianness) :
  Pipe.decode host (Pipe.encode (Pipe.opposite host) 4 0x12345678) = 0x78563412.
Proof. destruct host; vm_compute; reflexivity. Qed.

Lemma read_encoded (host : Pipe.Endianness) (n : nat) (v : Z)
  (rest out : list byte) (sw : bool) :
  0 ≤ v < 2 ^ (Z.of_nat n * 8) →
  Pipe.read host n
    (Pipe.mk (Pipe.encode (if sw then Pipe.opposite host else host) n v ++ rest)
             out sw)
  = (Pipe.mk rest out sw, Pipe.Ok v).
Proof.
  intros Hv. unfold Pipe.read. cbn [Pipe.input Pipe.output Pipe.swapOnRead].
  rewrite length_app, length_encode.
  destruct (Nat.leb_spec n (n + length rest)) as [_|]; [|lia].
  rewrite take_app_length', drop_app_length'
    by (symmetry; apply length_encode).
  destruct sw; [rewrite decode_swapped|rewrite decode_encode]; done.
Qed.

Lemma read_prefix (host : Pipe.Endianness) (m rest out : list byte) (sw : bool) :
  Pipe.read host (length m) (Pipe.mk (m ++ rest) out sw)
  = (Pipe.mk rest out sw, Pipe.Ok (Pipe.decode host (if sw then rev m else m))).
Proof.
  unfold Pipe.read. cbn [Pipe.input Pipe.output Pipe.swapOnRead].
  rewrite length_app.
  destruct (Nat.leb_spec (length m) (length m + length rest)) as [_|]; [|lia].
  by rewrite take_app_length, drop_app_length.
Qed.

Lemma read_cases (host : Pipe.Endianness) (n : nat) (p : Pipe.t) :
  (∃ v p', Pipe.read host n p = (p', Pipe.Ok v)
           ∧ Pipe.output p' = Pipe.output p
           ∧ Pipe.swapOnRead p' = Pipe.swapOnRead p)
  ∨ Pipe.read host n p = (p, Pipe.Err Pipe.EndOfPipe).
Proof.
  unfold Pipe.read. destruct (n <=? length (Pipe.input p))%nat;
    [left|right; reflexivity].
  eexists _, _. split; [reflexivity|]. split; reflexivity.
Qed.

(** What the three header reads that follow the marker can do: return, or
    raise the end of the pipe; they leave the bytes written and the swap
    flag alone. *)
Lemma header_reads (host : Pipe.Endianness) (p : Pipe.t) :
  let res := (version ⇐ Pipe.read host 4;;
              offset ⇐ Pipe.read host 8;;
              n ⇐ Pipe.read host 4;;
              Pipe.ret (mkHeader version offset n)) p in
  Pipe.output res.1 = Pipe.output p
  ∧ Pipe.swapOnRead res.1 = Pipe.swapOnRead p
  ∧ res.2 ≠ Pipe.Err Pipe.UnrecognizedEndianness.
Proof.
  unfold Pipe.bind, Pipe.ret.
  destruct (read_cases host 4 p) as [(v & p1 & -> & Ho1 & Hs1)| ->];
    [|by cbn].
  destruct (read_cases host 8 p1) as [(t & p2 & -> & Ho2 & Hs2)| ->];
    [|by cbn; rewrite Ho1, Hs1].
  destruct (read_cases host 4 p2) as [(n & p3 & -> & Ho3 & Hs3)| ->];
    cbn; rewrite ?Ho3, ?Hs3, Ho2, Hs2, Ho1, Hs1; done.
Qed.

(** C9. The constructor first sends the marker 0x12345678 and the client
    version 1, whatever happens next.  With [flag] the value the server's
    marker reads as: byte swapping is switched on exactly when [flag] is
    0x78563412 (the flag is otherwise left as it was), and the constructor
    raises the endianness error exactly when [flag] is neither 0x12345678
    nor 0x78563412.  After an accepted marker it reads, in this order, the
    server's protocol version ([u32]), the time stamp offset ([f64]) and
    the number of streams ([u32]), each in the server's byte order. *)
Theorem handshake_marker_and_header_order
  (host : Pipe.Endianness) (m rest out : list byte) (sw : bool) :
  length m = 4%nat →
  let flag := Pipe.decode host (if sw then rev m else m) in
  let sw' := if flag =? 0x78563412 then true else sw in
  let sent := out ++ Pipe.encode host 4 0x12345678 ++ Pipe.encode host 4 1 in
  let res := construct host (Pipe.mk (m ++ rest) out sw) in
  Pipe.output res.1 = sent
  ∧ Pipe.swapOnRead res.1 = sw'
  ∧ (res.2 = Pipe.Err Pipe.UnrecognizedEndianness
     ↔ flag ≠ 0x78563412 ∧ flag ≠ 0x12345678)
  ∧ ∀ (v t n : Z) (tail : list byte),
      flag = 0x78563412 ∨ flag = 0x12345678 →
      0 ≤ v < 2 ^ 32 → 0 ≤ t < 2 ^ 64 → 0 ≤ n < 2 ^ 32 →
      let order := if sw' then Pipe.opposite host else host in
      rest = Pipe.encode order 4 v ++ Pipe.encode order 8 t
             ++ Pipe.encode order 4 n ++ tail →
      res = (Pipe.mk tail sent sw', Pipe.Ok (mkHeader v t n)).
Proof.
  intros Hm flag sw' sent res.
  assert ((flag ≠ 0x78563412 ∧ flag ≠ 0x12345678 ∧ sw' = sw
           ∧ res = (Pipe.mk rest sent sw,
                    Pipe.Err Pipe.UnrecognizedEndianness))
          ∨ ((flag = 0x78563412 ∨ flag = 0x12345678)
             ∧ res = (version ⇐ Pipe.read host 4;;
                      offset ⇐ Pipe.read host 8;;
                      n ⇐ Pipe.read host 4;;
                      Pipe.ret (mkHeader version offset n))
                     (Pipe.mk rest sent sw'))) as Hres.
  { assert (res = (_ ⇐ (if flag =? 0x78563412 then Pipe.setSwapOnRead true
                        else if negb (flag =? 0x12345678)
                             then Pipe.throw Pipe.UnrecognizedEndianness
                             else Pipe.ret tt);;
                   version ⇐ Pipe.read host 4;;
                   offset ⇐ Pipe.read host 8;;
                   n ⇐ Pipe.read host 4;;
                   Pipe.ret (mkHeader version offset n))
                  (Pipe.mk rest sent sw)) as ->.
    { subst res. unfold construct.
      unfold Pipe.bind at 1 2 3, Pipe.write.
      cbn [Pipe.input Pipe.output Pipe.swapOnRead].
      rewrite <- Hm at 1. rewrite read_prefix.
      fold flag. rewrite <- app_assoc. reflexivity. }
    unfold Pipe.bind at 1 5. subst sw'.
    destruct (Z.eqb_spec flag 0x78563412) as [Hrev|Hnrev].
    - right. split; [by left|]. reflexivity.
    - destruct (Z.eqb_spec flag 0x12345678) as [Hsame|Hnsame]; cbn [negb].
      + right. split; [by right|]. reflexivity.
      + left. done. }
  clearbody res flag.
  destruct Hres as [(Hnrev & Hnsame & Hsw & ->)|[Hflag ->]].
  - (* unrecognized marker *)
    rewrite Hsw. cbn [fst snd Pipe.output Pipe.swapOnRead].
    split; [done|]. split; [done|]. split; [done|].
    intros v t n tail [?|?]; done.
  - (* accepted marker *)
    pose proof (header_reads host (Pipe.mk rest sent sw')) as (Ho & Hs & He).
    cbn zeta in Ho, Hs, He.
    split; [exact Ho|]. split; [exact Hs|]. split.
    + split; [intros Herr; by destruct He|].
      intros [? ?]; by destruct Hflag.
    + intros v t n tail _ Hv Ht Hn order ->. subst order.
      unfold Pipe.bind, Pipe.ret.
      rewrite (read_encoded host 4 v _ sent sw') by (simpl; lia).
      rewrite (read_encoded host 8 t _ sent sw') by (simpl; lia).
      rewrite (read_encoded host 4 n _ sent sw') by (simpl; lia).
      reflexivity.
Qed.

Lemma handshake_marker_and_header_order_witness :
  let res := construct Pipe.LittleEndian
               (Pipe.mk ([Byte.x12; Byte.x34; Byte.x56; Byte.x78]
                         ++ [Byte.x00; Byte.x00; Byte.x00; Byte.x01])
                        [] false) in
  Pipe.output res.1
  = [] ++ Pipe.encode Pipe.LittleEndian 4 0x12345678
    ++ Pipe.encode Pipe.LittleEndian 4 1
  ∧ Pipe.swapOnRead res.1 = true
  ∧ res.2 ≠ Pipe.Err Pipe.UnrecognizedEndianness.
Proof.
  pose proof (handshake_marker_and_header_order Pipe.LittleEndian
                [Byte.x12; Byte.x34; Byte.x56; Byte.x78]
                [Byte.x00; Byte.x00; Byte.x00; Byte.x01] [] false eq_refl)
    as (Ho & Hs & He & _).
  split; [exact Ho|]. split; [exact Hs|].
  intros Herr. apply He in Herr as [Hneq _]. apply Hneq. reflexivity.
Defined.

End Handshake.

(** ** Life of frame buffer handles *)

Section FrameBufferLifeProofs.
Import FrameBuffer FrameBufferLife.

Lemma ref_live (h : gmap Z Z) (p c : Z) :
  h !! p = Some c → 0 ≤ c → c + 1 < 2 ^ 32 →
  ref h p = Some (<[p := c + 1]> h).
Proof.
  intros Hp ? ?. unfold ref. rewrite Hp. simpl.
  unfold wrap32. by rewrite Z.mod_small by lia.
Qed.

Lemma release_live (h : gmap Z Z) (p c : Z) :
  h !! p = Some c → 1 ≤ c < 2 ^ 32 →
  release h p = Some (if c =? 1 then delete p h else <[p := c - 1]> h).
Proof.
  intros Hp Hc. unfold release, unref. rewrite Hp. simpl.
  unfold wrap32. rewrite Z.mod_small by lia.
  destruct (Z.eqb_spec (c - 1) 0), (Z.eqb_spec c 1); try lia; [|done].
  f_equal. apply map_eq. intros q.
  destruct (decide (q = p)) as [->|].
  - by rewrite !lookup_delete_eq.
  - by rewrite !lookup_delete_ne, lookup_insert_ne.
Qed.

Lemma references_nonneg (p : Z) (hs : list t) : 0 ≤ references p hs.
Proof. unfold references. lia. Qed.

Lemma references_le_length (p : Z) (hs : list t) :
  references p hs ≤ Z.of_nat (length hs).
Proof. unfold references. pose proof (length_filter (λ f, buffer f = p) hs). lia. Qed.

Lemma references_cons (p : Z) (f : t) (hs : list t) :
  references p (f :: hs) = points f p + references p hs.
Proof.
  unfold references, points. rewrite filter_cons.
  destruct (decide (buffer f = p)); simpl; lia.
Qed.

Lemma references_app (p : Z) (hs1 hs2 : list t) :
  references p (hs1 ++ hs2) = references p hs1 + references p hs2.
Proof. unfold references. rewrite filter_app, length_app. lia. Qed.

Lemma references_split (p : Z) (hs : list t) (i : nat) (f : t) :
  hs !! i = Some f →
  references p hs
  = references p (take i hs) + points f p + references p (drop (S i) hs).
Proof.
  intros Hi. rewrite <- (take_drop_middle hs i f Hi) at 1.
  rewrite references_app, references_cons. lia.
Qed.

Lemma references_delete (p : Z) (hs : list t) (i : nat) (f : t) :
  hs !! i = Some f →
  references p (delete i hs) = references p hs - points f p.
Proof.
  intros Hi. rewrite (references_split p hs i f Hi).
  rewrite delete_take_drop, references_app. lia.
Qed.

Lemma references_insert (p : Z) (hs : list t) (i : nat) (f g : t) :
  hs !! i = Some f →
  references p (<[i := g]> hs) = references p hs - points f p + points g p.
Proof.
  intros Hi. rewrite (references_split p hs i f Hi).
  rewrite insert_take_drop by (by eapply lookup_lt_Some).
  rewrite references_app, references_cons. lia.
Qed.

Lemma references_snoc (p : Z) (hs : list t) (f : t) :
  references p (hs ++ [f]) = references p hs + points f p.
Proof.
  rewrite references_app, references_cons.
  change (references p []) with 0. lia.
Qed.

Lemma references_member (hs : list t) (i : nat) (f : t) :
  hs !! i = Some f → 1 ≤ references (buffer f) hs.
Proof.
  intros Hi. rewrite (references_split _ hs i f Hi).
  pose proof (references_nonneg (buffer f) (take i hs)).
  pose proof (references_nonneg (buffer f) (drop (S i) hs)).
  unfold points. rewrite decide_True by done. lia.
Qed.

(** A reference is added to the payload [p] that some handle already
    points to. *)
Lemma consistent_ref (h : gmap Z Z) (hs hs' : list t) (p : Z) :
  consistent (h, hs) → p ≠ 0 → 1 ≤ references p hs →
  Z.of_nat (length hs) + 1 < 2 ^ 32 →
  (∀ q, q ≠ 0 → references q hs'
        = references q hs + (if decide (p = q) then 1 else 0)) →
  ∃ h', ref h p = Some h' ∧ consistent (h', hs').
Proof.
  intros Hc Hp Hone Hlen Hrefs.
  pose proof (references_le_length p hs).
  pose proof (Hc p Hp) as Hlook. simpl in Hlook.
  destruct (Z.eqb_spec (references p hs) 0); [lia|].
  eexists. split; [apply (ref_live _ _ _ Hlook); lia|].
  intros q Hq. simpl. rewrite Hrefs by done.
  destruct (decide (p = q)) as [<-|Hne].
  - rewrite lookup_insert_eq.
    destruct (Z.eqb_spec (references p hs + 1) 0); [lia|done].
  - rewrite lookup_insert_ne, Z.add_0_r by done. apply (Hc q Hq).
Qed.

(** A reference is taken from the payload [p] that some handle points to. *)
Lemma consistent_release (h : gmap Z Z) (hs hs' : list t) (p : Z) :
  consistent (h, hs) → p ≠ 0 → 1 ≤ references p hs →
  Z.of_nat (length hs) < 2 ^ 32 →
  (∀ q, q ≠ 0 → references q hs'
        = references q hs - (if decide (p = q) then 1 else 0)) →
  ∃ h', release h p = Some h' ∧ consistent (h', hs').
Proof.
  intros Hc Hp Hone Hlen Hrefs.
  pose proof (references_le_length p hs).
  pose proof (Hc p Hp) as Hlook. simpl in Hlook.
  destruct (Z.eqb_spec (references p hs) 0); [lia|].
  eexists. split; [apply (release_live _ _ _ Hlook); lia|].
  intros q Hq. simpl. rewrite Hrefs by done.
  destruct (decide (p = q)) as [<-|Hne].
  - destruct (Z.eqb_spec (references p hs) 1) as [->|].
    + by rewrite lookup_delete_eq.
    + rewrite lookup_insert_eq.
      destruct (Z.eqb_spec (references p hs - 1) 0); [lia|done].
  - rewrite Z.sub_0_r.
    destruct (Z.eqb_spec (references p hs) 1).
    + rewrite lookup_delete_ne by done. apply (Hc q Hq).
    + rewrite lookup_insert_ne by done. apply (Hc q Hq).
Qed.

Lemma consistent_same_references (h : gmap Z Z) (hs hs' : list t) :
  consistent (h, hs) →
  (∀ q, q ≠ 0 → references q hs' = references q hs) →
  consistent (h, hs').
Proof. intros Hc Hrefs q Hq. simpl. rewrite Hrefs by done. apply (Hc q Hq). Qed.

Lemma points_null (f : t) (q : Z) : buffer f = 0 → q ≠ 0 → points f q = 0.
Proof. intros Hf Hq. unfold points. rewrite decide_False; [done|congruence]. Qed.

Lemma points_at (f : t) (q : Z) :
  points f q = if decide (buffer f = q) then 1 else 0.
Proof. reflexivity. Qed.

(** X1. The reference counters follow the handles.  If every payload some
    handle of the table points to is live with a counter equal to the number
    of those handles, and nothing else is live, then each operation of the
    class (allocation, copy construction, destruction, assignment,
    invalidation) on existing handles succeeds and leaves the store in that
    state again: a payload is freed exactly when its last handle lets go. *)
Theorem reference_counts_follow_handles
  (h : gmap Z Z) (hs : list t) (o : op) :
  consistent (h, hs) → Z.of_nat (length hs) + 1 < 2 ^ 32 → allowed (h, hs) o →
  ∃ st', step (h, hs) o = Some st' ∧ consistent st'.
Proof.
  intros Hc Hlen Hok. destruct o as [p sSize|i|i|i j|i]; cbn [step allowed] in *.
  - (* Create *)
    destruct Hok as [Hp Hfresh]. eexists. split; [reflexivity|].
    assert (references p hs = 0) as Hzero.
    { pose proof (Hc p Hp) as Hl. simpl in Hl. rewrite Hfresh in Hl.
      destruct (Z.eqb_spec (references p hs) 0); [done|discriminate]. }
    intros q Hq. cbn [fst snd]. rewrite references_snoc, points_at. cbn [buffer].
    destruct (decide (p = q)) as [<-|Hne].
    + rewrite lookup_insert_eq, Hzero. reflexivity.
    + rewrite lookup_insert_ne, Z.add_0_r by done. apply (Hc q Hq).
  - (* Copy *)
    destruct (lookup_lt_is_Some_2 hs i Hok) as [f Hf]. rewrite Hf. cbn [mbind option_bind].
    unfold copy. destruct (Z.eqb_spec (buffer f) 0) as [Hnull|Hlive]; cbn [negb].
    + cbn [mbind option_bind]. eexists. split; [reflexivity|].
      apply (consistent_same_references h hs); [done|]. intros q Hq.
      rewrite references_snoc, points_null; [lia|done|done].
    + pose proof (references_member hs i f Hf) as Hone.
      destruct (consistent_ref h hs
                  (hs ++ [mk (size f) (buffer f) (timeStamp f)]) (buffer f)
                  Hc Hlive Hone Hlen)
        as (h' & -> & Hc').
      { intros q _. by rewrite references_snoc, points_at. }
      cbn [mbind option_bind]. eauto.
  - (* Destroy *)
    destruct (lookup_lt_is_Some_2 hs i Hok) as [f Hf]. rewrite Hf. cbn [mbind option_bind].
    unfold destroy. destruct (Z.eqb_spec (buffer f) 0) as [Hnull|Hlive]; cbn [negb].
    + cbn [mbind option_bind]. eexists. split; [reflexivity|].
      apply (consistent_same_references h hs); [done|]. intros q Hq.
      rewrite (references_delete q hs i f Hf), points_null; [lia|done|done].
    + pose proof (references_member hs i f Hf) as Hone.
      destruct (consistent_release h hs (delete i hs) (buffer f)
                  Hc Hlive Hone ltac:(lia))
        as (h' & -> & Hc').
      { intros q _. by rewrite (references_delete q hs i f Hf), points_at. }
      cbn [mbind option_bind]. eauto.
  - (* Assign *)
    destruct Hok as [Hi Hj].
    destruct (lookup_lt_is_Some_2 hs i Hi) as [f Hf].
    destruct (lookup_lt_is_Some_2 hs j Hj) as [g Hg].
    rewrite Hf, Hg. cbn [mbind option_bind]. unfold assign.
    destruct (Z.eqb_spec (buffer f) (buffer g)) as [Hsame|Hdiff]; cbn [negb].
    { cbn [mbind option_bind]. eexists. split; [reflexivity|].
      by rewrite list_insert_id. }
    set (mid := mk (mkSize 0 0) 0 (timeStamp f)).
    set (new := mk (size g) (buffer g) (timeStamp g)).
    assert (∃ h1, (if negb (buffer f =? 0) then release h (buffer f) else Some h)
                  = Some h1 ∧ consistent (h1, <[i := mid]> hs))
      as (h1 & -> & Hc1).
    { destruct (Z.eqb_spec (buffer f) 0) as [Hnull|Hlive]; cbn [negb].
      - exists h. split; [done|].
        apply (consistent_same_references h hs); [done|]. intros q Hq.
        rewrite (references_insert q hs i f mid Hf), !points_null; done || lia.
      - pose proof (references_member hs i f Hf) as Hone.
        apply (consistent_release h hs _ _ Hc Hlive Hone ltac:(lia)).
        intros q Hq. rewrite (references_insert q hs i f mid Hf), (points_at f).
        rewrite (points_null mid) by done. lia. }
    cbn [mbind option_bind buffer size timeStamp].
    assert (i ≠ j) as Hij by (intros ->; congruence).
    assert (<[i := mid]> hs !! j = Some g) as Hg1
      by (by rewrite list_lookup_insert_ne).
    assert (<[i := mid]> hs !! i = Some mid) as Hmid
      by (by apply list_lookup_insert_eq).
    assert (∀ q, q ≠ 0 → references q (<[i := new]> hs)
                 = references q (<[i := mid]> hs) + points new q) as Hnew.
    { intros q Hq. rewrite <- (list_insert_insert_eq hs i new mid).
      rewrite (references_insert q _ i mid new Hmid).
      rewrite (points_null mid) by done. lia. }
    destruct (Z.eqb_spec (buffer g) 0) as [Hnull|Hlive]; cbn [negb].
    + cbn [mbind option_bind]. eexists. split; [reflexivity|].
      apply (consistent_same_references h1 (<[i := mid]> hs)); [done|].
      intros q Hq. rewrite Hnew, points_null; done || lia.
    + pose proof (references_member _ j g Hg1) as Hone.
      assert (Z.of_nat (length (<[i := mid]> hs)) + 1 < 2 ^ 32) as Hlen1
        by (by rewrite length_insert).
      destruct (consistent_ref h1 (<[i := mid]> hs) (<[i := new]> hs) (buffer g)
                  Hc1 Hlive Hone Hlen1)
        as (h2 & -> & Hc2).
      { intros q Hq. by rewrite Hnew, points_at. }
      cbn [mbind option_bind]. eauto.
  - (* Invalidate *)
    destruct (lookup_lt_is_Some_2 hs i Hok) as [f Hf]. rewrite Hf.
    cbn [mbind option_bind]. unfold invalidate. cbn [buffer size timeStamp].
    destruct (Z.eqb_spec (buffer f) 0) as [Hnull|Hlive]; cbn [negb].
    + cbn [mbind option_bind]. eexists. split; [reflexivity|].
      apply (consistent_same_references h hs); [done|]. intros q Hq.
      rewrite (references_insert q hs i f _ Hf), !points_null; done || lia.
    + pose proof (references_member hs i f Hf) as Hone.
      destruct (consistent_release h hs
                  (<[i := mk (mkSize 0 0) 0 (timeStamp f)]> hs) (buffer f)
                  Hc Hlive Hone ltac:(lia))
        as (h' & -> & Hc').
      { intros q Hq. rewrite (references_insert q hs i f _ Hf), (points_at f).
        rewrite points_null by done. lia. }
      cbn [mbind option_bind]. eauto.
Qed.

Lemma reference_counts_follow_handles_witness :
  ∃ st', step (∅, []) (Create 16 (mkSize 640 480)) = Some st' ∧ consistent st'.
Proof.
  apply (reference_counts_follow_handles ∅ [] (Create 16 (mkSize 640 480))).
  - intros p _. reflexivity.
  - simpl. lia.
  - split; [lia|reflexivity].
Defined.



(** X3. [invalidate] gives up exactly the reference the destructor would
    give up and leaves an invalid handle of size 0x0 with its time stamp
    untouched; invalidating that handle again changes nothing. *)
Theorem invalidate_releases_once (h : gmap Z Z) (f : t) :
  backed h f →
  ∃ h', invalidate h f = Some (h', mk (mkSize 0 0) 0 (timeStamp f))
        ∧ destroy h f = Some h'
        ∧ invalidate h' (mk (mkSize 0 0) 0 (timeStamp f))
          = Some (h', mk (mkSize 0 0) 0 (timeStamp f)).
Proof.
  intros Hb. unfold invalidate, destroy. cbn [buffer size timeStamp].
  destruct (Z.eqb_spec (buffer f) 0) as [Hnull|Hlive]; cbn [negb].
  - exists h. rewrite Z.eqb_refl. cbn [negb]. by rewrite Hnull.
  - destruct Hb as [|Hl]; [done|].
    destruct (release_is_Some _ _ Hl) as [h' Hh']. rewrite Hh'.
    exists h'. rewrite Z.eqb_refl. done.
Qed.

Lemma invalidate_releases_once_witness :
  ∃ h', invalidate {[ 16 := 1 ]} (mk (mkSize 640 480) 16 (7 # 2))
        = Some (h', mk (mkSize 0 0) 0 (7 # 2))
        ∧ destroy {[ 16 := 1 ]} (mk (mkSize 640 480) 16 (7 # 2)) = Some h'
        ∧ invalidate h' (mk (mkSize 0 0) 0 (7 # 2))
          = Some (h', mk (mkSize 0 0) 0 (7 # 2)).
Proof.
  apply (invalidate_releases_once {[ 16 := 1 ]}
           (mk (mkSize 640 480) 16 (7 # 2))).
  right. simpl. rewrite lookup_singleton_eq. eauto.
Defined.

End FrameBufferLifeProofs.

(** ** Depth correction objects in use *)

Section DepthCorrectionUseProofs.
Import DepthCorrectionIO DepthCorrectionUse.

Lemma copy_loop {F : Type} (pre suf junk : list (PixelCorrection F)) :
  length junk = length suf →
  iterate_opt (length suf) (Z.of_nat (length pre))
    (λ i cps, cp ← idx (pre ++ suf) i; upd cps i cp) (pre ++ junk)
  = Some (pre ++ suf).
Proof.
  revert pre junk. induction suf as [|cp suf IH]; intros pre junk Hlen.
  - destruct junk; [|done]. reflexivity.
  - destruct junk as [|j junk]; [done|]. simpl in Hlen.
    cbn [length iterate_opt].
    rewrite idx_app_middle. obind. rewrite upd_app_middle. obind.
    replace (pre ++ cp :: suf) with ((pre ++ [cp]) ++ suf)
      by (by rewrite <- app_assoc).
    replace (pre ++ cp :: junk) with ((pre ++ [cp]) ++ junk)
      by (by rewrite <- app_assoc).
    replace (Z.of_nat (length pre) + 1) with (Z.of_nat (length (pre ++ [cp])))
      by (rewrite length_app; simpl; lia).
    apply IH. lia.
Qed.

(** X4. The copy constructor of a depth correction object that satisfies
    the class invariant (a control point array of the size the constructors
    allocate) gives an equal object, whatever the fresh array held. *)
Theorem copy_constructor_equal {F : Type} (fresh : PixelCorrection F)
  (source : DepthCorrection F) :
  dc_wf source → copy fresh source = Some source.
Proof.
  intros (_ & _ & _ & Hlen). unfold copy, for_opt.
  rewrite Z.sub_0_r, <- Hlen, Nat2Z.id.
  pose proof (copy_loop [] (controlPoints source)
                (replicate (length (controlPoints source)) fresh)) as Hloop.
  change (Z.of_nat (length [])) with 0 in Hloop. cbn [app] in Hloop.
  rewrite Hloop by (by rewrite length_replicate). obind.
  by destruct source.
Qed.

Lemma copy_constructor_equal_witness :
  copy (mkPC 0 0) (DepthCorrectionUse.create 1 (mkSize 1 1))
  = Some (DepthCorrectionUse.create 1 (mkSize 1 1)).
Proof.
  apply (copy_constructor_equal (mkPC 0 0) (DepthCorrectionUse.create 1 (mkSize 1 1))).
  unfold dc_wf. simpl. vm_compute. intuition discriminate.
Defined.


Lemma skip_app (size n : Z) (junk rest : list byte) :
  0 ≤ size * n → Z.of_nat (length junk) = size * n →
  skip size n (junk ++ rest) = Some rest.
Proof.
  intros Hnn Hlen. unfold skip. rewrite length_app.
  destruct (Z.leb_spec 0 (size * n)); [|lia].
  destruct (Z.leb_spec (size * n) (Z.of_nat (length junk + length rest)));
    [|lia].
  cbn [andb]. f_equal. apply drop_app_length'. lia.
Qed.

Lemma read_byte_cons (b : byte) (rest : list byte) :
  read_le 1 (b :: rest) = Some (byte.unsigned b, rest).
Proof.
  unfold read_le, read_bytes. cbn [length Nat.leb take drop]. obind.
  rewrite take_0, drop_0. f_equal. f_equal.
  unfold le_combine. rewrite Z.shiftl_0_l. apply Z.lor_0_r.
Qed.

Lemma read_layout (dc : DepthCorrection Z) (rest : list byte) :
  dc_wf dc → Forall pc_bits (controlPoints dc) →
  read (layout dc ++ rest) = Some (dc, rest).
Proof.
  intros (Hdeg & Hw & Hh & Hlen) Hbits.
  unfold read, layout, read_u32. rewrite <- !app_assoc.
  rewrite read_le_app by (simpl; lia). obind.
  rewrite read_le_app by (simpl; lia). obind.
  rewrite read_le_app by (simpl; lia). obind.
  destruct dc as [deg [w h] cps]. simpl in *.
  unfold for_opt. rewrite Z.sub_0_r, <- Hlen, Nat2Z.id.
  pose proof (read_loop [] cps (replicate (length cps) (mkPC 0 0)) rest)
    as Hloop.
  change (Z.of_nat (length [])) with 0 in Hloop. cbn [app] in Hloop.
  rewrite Hloop by (by rewrite ?length_replicate). reflexivity.
Qed.

(** X5. The depth correction of a stream of the multiplexed source, by the
    format version of its depth stream.  From version 4 on the B-spline
    object is read from the pipe, and it is dropped (null pointer) exactly
    when its degree is 0.  Below version 4 the stream always holds the dummy
    object of degree 0 with one identity control point; nothing is read for
    versions below 2, one flag byte for versions 2 and 3, and when the flag
    is set also the two [u32] of the legacy buffer's size and its 2*w*h
    [f32], which are skipped.  [getDepthCorrectionParameters] returns a
    copy equal to the stream's object, or null. *)
Theorem stream_depth_correction_by_version
  (depthVersion : Z) (dc : DepthCorrection Z) (flag : byte) (w h : Z)
  (junk rest : list byte) :
  let dummy := mkDC 0 (mkSize 1 1) [mkPC 0x3f800000 0] in
  (4 ≤ depthVersion → dc_wf dc → Forall pc_bits (controlPoints dc) →
   Stream_depthCorrection depthVersion (layout dc ++ rest)
   = Some (if 0 <? degree dc then Some dc else None, rest)
   ∧ Stream_getDepthCorrectionParameters
       (if 0 <? degree dc then Some dc else None)
     = Some (if 0 <? degree dc then Some dc else None))
  ∧ (depthVersion < 2 →
     Stream_depthCorrection depthVersion rest = Some (Some dummy, rest))
  ∧ (2 ≤ depthVersion < 4 → byte.unsigned flag = 0 →
     Stream_depthCorrection depthVersion (flag :: rest)
     = Some (Some dummy, rest))
  ∧ (2 ≤ depthVersion < 4 → byte.unsigned flag ≠ 0 →
     0 ≤ w < 2 ^ 32 → 0 ≤ h < 2 ^ 32 →
     Z.of_nat (length junk) = 4 * (w * h * 2) →
     Stream_depthCorrection depthVersion
       (flag :: le_split 4 w ++ le_split 4 h ++ junk ++ rest)
     = Some (Some dummy, rest))
  ∧ Stream_getDepthCorrectionParameters (Some dummy) = Some (Some dummy)
  ∧ isValid dummy = false.
Proof.
  intros dummy. unfold Stream_depthCorrection.
  split; [|split; [|split; [|split; [|split]]]].
  - intros Hv Hwf Hbits.
    destruct (Z.leb_spec 4 depthVersion); [|lia].
    rewrite (read_layout dc rest Hwf Hbits). obind. split; [reflexivity|].
    unfold isValid. destruct (0 <? degree dc); [|done].
    unfold Stream_getDepthCorrectionParameters.
    by rewrite copy_constructor_equal.
  - intros Hv.
    destruct (Z.leb_spec 4 depthVersion); [lia|].
    destruct (Z.leb_spec 2 depthVersion); [lia|]. reflexivity.
  - intros Hv Hflag.
    destruct (Z.leb_spec 4 depthVersion); [lia|].
    destruct (Z.leb_spec 2 depthVersion); [|lia].
    rewrite read_byte_cons. obind. rewrite Hflag. reflexivity.
  - intros Hv Hflag Hw Hh Hlen.
    destruct (Z.leb_spec 4 depthVersion); [lia|].
    destruct (Z.leb_spec 2 depthVersion); [|lia].
    rewrite read_byte_cons. obind.
    destruct (Z.eqb_spec (byte.unsigned flag) 0); [done|]. cbn [negb].
    unfold read_u32.
    rewrite read_le_app by (simpl; lia). obind.
    rewrite read_le_app by (simpl; lia). obind.
    unfold volume. cbn [width height].
    rewrite (skip_app 4 (w * h * 2) junk rest) by nia. reflexivity.
  - reflexivity.
  - reflexivity.
Qed.


Lemma stream_depth_correction_by_version_witness :
  Stream_depthCorrection 3
    (Byte.x01 :: le_split 4 1 ++ le_split 4 1 ++ replicate 8 Byte.x00
     ++ [Byte.xff])
  = Some (Some (mkDC 0 (mkSize 1 1) [mkPC 0x3f800000 0]), [Byte.xff]).
Proof.
  apply (stream_depth_correction_by_version 3
           (mkDC 0 (mkSize 1 1) []) Byte.x01 1 1 (replicate 8 Byte.x00)
           [Byte.xff]).
  - lia.
  - vm_compute. discriminate.
  - lia.
  - lia.
  - reflexivity.
Defined.


Lemma save_fill_loop (pre suf : list (Z * Z)) (junk : list Z) :
  length junk = (2 * length suf)%nat →
  2 * Z.of_nat (length pre + length suf) < 2 ^ 32 →
  iterate_opt (length suf) (Z.of_nat (length pre))
    (λ i cc,
       row ← idx (pre ++ suf) i;
       cc ← upd cc (wrap32 (2 * i + 0)) row.1;
       upd cc (wrap32 (2 * i + 1)) row.2)
    (concat (map (λ row : Z * Z, [row.1; row.2]) pre) ++ junk)
  = Some (concat (map (λ row : Z * Z, [row.1; row.2]) (pre ++ suf))).
Proof.
  revert pre junk. induction suf as [|row suf IH]; intros pre junk Hlen Hsmall.
  - destruct junk; [|done]. by rewrite !app_nil_r.
  - destruct junk as [|j1 [|j2 junk]]; simpl in Hlen; try lia.
    cbn [length iterate_opt]. rewrite idx_app_middle. obind.
    set (flat := concat (map (λ row : Z * Z, [row.1; row.2]) pre)).
    assert (length flat = (2 * length pre)%nat) as Hflat.
    { subst flat. clear. induction pre as [|r pre IH]; simpl; [done|].
      rewrite IH. lia. }
    cbn [length] in Hsmall.
    unfold wrap32. rewrite !Z.mod_small by lia.
    replace (2 * Z.of_nat (length pre) + 0) with (Z.of_nat (length flat)) by lia.
    rewrite upd_app_middle. obind.
    replace (flat ++ row.1 :: j2 :: junk) with ((flat ++ [row.1]) ++ j2 :: junk)
      by (by rewrite <- app_assoc).
    replace (2 * Z.of_nat (length pre) + 1)
      with (Z.of_nat (length (flat ++ [row.1])))
      by (rewrite length_app; simpl; lia).
    rewrite upd_app_middle.
    replace (pre ++ row :: suf) with ((pre ++ [row]) ++ suf)
      by (by rewrite <- app_assoc).
    replace (Z.of_nat (length pre) + 1) with (Z.of_nat (length (pre ++ [row])))
      by (rewrite length_app; simpl; lia).
    replace ((flat ++ [row.1]) ++ row.2 :: junk)
      with (concat (map (λ row : Z * Z, [row.1; row.2]) (pre ++ [row])) ++ junk).
    + apply IH; [lia|]. rewrite length_app. simpl. lia.
    + rewrite map_app, concat_app. simpl. subst flat.
      by rewrite <- !app_assoc.
Qed.

Lemma save_write_loop (pre suf : list Z) (out : list byte) :
  iterate_opt (length suf) (Z.of_nat (length pre))
    (λ k out, v ← idx (pre ++ suf) k; Some (write_f32 v out)) out
  = Some (out ++ concat (map (le_split 4) suf)).
Proof.
  revert pre out. induction suf as [|v suf IH]; intros pre out; simpl.
  - by rewrite app_nil_r.
  - rewrite idx_app_middle. obind.
    replace (pre ++ v :: suf) with ((pre ++ [v]) ++ suf)
      by (by rewrite <- app_assoc).
    replace (Z.of_nat (length pre) + 1) with (Z.of_nat (length (pre ++ [v])))
      by (rewrite length_app; simpl; lia).
    rewrite IH. unfold write_f32. by rewrite <- app_assoc.
Qed.

Lemma interleaved_is_layout (rows : list (Z * Z)) :
  concat (map (le_split 4) (concat (map (λ row : Z * Z, [row.1; row.2]) rows)))
  = concat (map enc_cp (map (λ row : Z * Z, mkPC row.1 row.2) rows)).
Proof.
  induction rows as [|row rows IH]; [done|].
  cbn [map concat app]. rewrite IH. unfold enc_cp at 2. cbn [scale offset].
  by rewrite <- app_assoc.
Qed.

(** X6. The file the depth correction tool saves is the one the file
    constructor of [DepthCorrection] reads: it consists of the three header
    fields and the interleaved (scale, offset) coefficients, and reading it
    gives the object whose control points are the rows of the solution. *)
Theorem depth_correction_tool_file_reads_back
  (deg : Z) (segs : Size) (bsplineCoeffs : list (Z * Z))
  (out rest : list byte) :
  let dc := mkDC deg segs
                 (map (λ row : Z * Z, mkPC row.1 row.2) bsplineCoeffs) in
  0 ≤ deg < 2 ^ 32 →
  0 ≤ width segs < 2 ^ 32 → 0 ≤ height segs < 2 ^ 32 →
  Z.of_nat (length bsplineCoeffs) = numControlPoints deg segs →
  2 * numControlPoints deg segs < 2 ^ 32 →
  Forall (λ row : Z * Z, 0 ≤ row.1 < 2 ^ 32 ∧ 0 ≤ row.2 < 2 ^ 32)
         bsplineCoeffs →
  DepthCorrectionTool_save deg segs bsplineCoeffs out
  = Some (out ++ layout dc)
  ∧ read (layout dc ++ rest) = Some (dc, rest).
Proof.
  intros dc Hdeg Hw Hh Hlen Hsmall Hbits. split.
  - unfold DepthCorrectionTool_save.
    set (flat := concat (map (λ row : Z * Z, [row.1; row.2]) bsplineCoeffs)).
    assert (length flat = (2 * length bsplineCoeffs)%nat) as Hflat.
    { subst flat. clear. induction bsplineCoeffs as [|r l IH]; simpl; [done|].
      rewrite IH. lia. }
    assert (wrap32 (numControlPoints deg segs * 2)
            = Z.of_nat (length flat)) as ->.
    { unfold wrap32. rewrite Z.mod_small by lia. lia. }
    unfold for_opt. rewrite !Z.sub_0_r, <- Hlen, !Nat2Z.id.
    pose proof (save_fill_loop [] bsplineCoeffs (replicate (length flat) 0))
      as Hfill.
    change (Z.of_nat (length [])) with 0 in Hfill. cbn [app map concat] in Hfill.
    rewrite Hfill by (rewrite ?length_replicate; simpl; lia). obind.
    fold flat.
    pose proof (save_write_loop [] flat) as Hwr.
    change (Z.of_nat (length [])) with 0 in Hwr. cbn [app] in Hwr.
    rewrite Hwr. unfold write_u32, layout. subst flat dc.
    cbn [controlPoints degree numSegments].
    rewrite interleaved_is_layout. by rewrite <- !app_assoc.
  - apply read_layout.
    + unfold dc_wf. subst dc. cbn. rewrite length_map. done.
    + subst dc. cbn. apply Forall_map. eapply Forall_impl; [exact Hbits|].
      intros [a b] [? ?]. split; done.
Qed.

Lemma depth_correction_tool_file_reads_back_witness :
  let dc := mkDC 0 (mkSize 2 1) [mkPC 1 2; mkPC 3 4] in
  DepthCorrectionTool_save 0 (mkSize 2 1) [(1, 2); (3, 4)] []
  = Some ([] ++ layout dc)
  ∧ read (layout dc ++ [Byte.xff]) = Some (dc, [Byte.xff]).
Proof.
  apply (depth_correction_tool_file_reads_back 0 (mkSize 2 1)
           [(1, 2); (3, 4)] [] [Byte.xff]).
  - lia.
  - simpl. lia.
  - simpl. lia.
  - reflexivity.
  - vm_compute. reflexivity.
  - repeat constructor; simpl; lia.
Defined.

End DepthCorrectionUseProofs.

(** ** The intrinsic parameter file *)

Section IntrinsicFileProofs.
Import LensDistortionIO IntrinsicFile.

Ltac calc_idx :=
  match goal with
  | |- context [idx ?l ?i] =>
      let r := eval vm_compute in (idx l i) in
      change (idx l i) with r
  end; obind.

Ltac calc_upd :=
  match goal with
  | |- context [upd ?l ?i ?x] =>
      let r := eval vm_compute in (upd l i x) in
      change (upd l i x) with r
  end; obind.

Lemma read_f64_array_loop (pre suf junk : list Z) (rest : list byte) :
  length junk = length suf →
  Forall (λ v, 0 ≤ v < 2 ^ 64) suf →
  iterate_opt (length suf) (Z.of_nat (length pre))
    (λ i '(a, f), '(v, f) ← read_f64 f; a ← upd a i v; Some (a, f))
    (pre ++ junk, f64s suf ++ rest)
  = Some (pre ++ suf, rest).
Proof.
  revert pre junk. induction suf as [|v suf IH]; intros pre junk Hlen Hbits.
  - destruct junk; [|done]. reflexivity.
  - destruct junk as [|j junk]; [done|]. simpl in Hlen.
    apply Forall_cons in Hbits as [Hv Hbits].
    cbn [length iterate_opt]. unfold f64s. cbn [map concat].
    rewrite <- app_assoc. unfold read_f64.
    rewrite read_le_app by (simpl; lia). obind.
    rewrite upd_app_middle. obind.
    replace (pre ++ v :: junk) with ((pre ++ [v]) ++ junk)
      by (by rewrite <- app_assoc).
    replace (Z.of_nat (length pre) + 1) with (Z.of_nat (length (pre ++ [v])))
      by (rewrite length_app; simpl; lia).
    fold (f64s suf). unfold read_f64 in IH.
    rewrite IH by (done || lia). by rewrite <- app_assoc.
Qed.

Lemma read_f64_array_app (vs : list Z) (rest : list byte) :
  Forall (λ v, 0 ≤ v < 2 ^ 64) vs →
  read_f64_array (Z.of_nat (length vs)) (f64s vs ++ rest) = Some (vs, rest).
Proof.
  intros Hbits. unfold read_f64_array, for_opt. rewrite Z.sub_0_r, Nat2Z.id.
  pose proof (read_f64_array_loop [] vs (replicate (length vs) 0) rest) as Hl.
  change (Z.of_nat (length [])) with 0 in Hl. cbn [app] in Hl.
  apply Hl; [by rewrite length_replicate|done].
Qed.

Lemma write_f64_array_loop (pre suf : list Z) (out : list byte) :
  iterate_opt (length suf) (Z.of_nat (length pre))
    (λ i out, v ← idx (pre ++ suf) i; Some (write_f64 v out)) out
  = Some (out ++ f64s suf).
Proof.
  revert pre out. induction suf as [|v suf IH]; intros pre out; simpl.
  - unfold f64s. simpl. by rewrite app_nil_r.
  - rewrite idx_app_middle. obind.
    replace (pre ++ v :: suf) with ((pre ++ [v]) ++ suf)
      by (by rewrite <- app_assoc).
    replace (Z.of_nat (length pre) + 1) with (Z.of_nat (length (pre ++ [v])))
      by (rewrite length_app; simpl; lia).
    rewrite IH. unfold write_f64, f64s. cbn [map concat].
    by rewrite <- app_assoc.
Qed.

Lemma write_f64_array_all (vs : list Z) (out : list byte) :
  write_f64_array vs (Z.of_nat (length vs)) out = Some (out ++ f64s vs).
Proof.
  unfold write_f64_array, for_opt. rewrite Z.sub_0_r, Nat2Z.id.
  apply (write_f64_array_loop [] vs).
Qed.

Lemma f64s_app (vs ws : list Z) : f64s (vs ++ ws) = f64s vs ++ f64s ws.
Proof. unfold f64s. by rewrite map_app, concat_app. Qed.

Lemma f64s_length (vs : list Z) : length (f64s vs) = (8 * length vs)%nat.
Proof.
  unfold f64s. induction vs as [|v vs IH]; [done|].
  cbn [map concat length]. rewrite length_app, length_le_split, IH. lia.
Qed.

Lemma write_matrix4_all (m : list Z) (out : list byte) :
  length m = 16%nat → write_matrix4 m out = Some (out ++ f64s m).
Proof.
  intros Hlen.
  do 16 (destruct m as [|? m]; [discriminate|]).
  destruct m; [|discriminate].
  unfold write_matrix4. unroll_for. repeat (unroll_for; repeat calc_idx).
  unfold write_f64, f64s. cbn [map concat]. by rewrite <- !app_assoc.
Qed.

(** Every block of [8*n] bytes is the image of [n] values. *)
Lemma bytes_are_f64s (n : nat) (bs : list byte) :
  length bs = (8 * n)%nat →
  ∃ vs, length vs = n ∧ Forall (λ v, 0 ≤ v < 2 ^ 64) vs ∧ f64s vs = bs.
Proof.
  revert bs. induction n as [|n IH]; intros bs Hlen.
  - destruct bs; [|done]. by exists [].
  - destruct (IH (drop 8 bs)) as (vs & Hvs & Hbits & Heq).
    { rewrite length_drop. lia. }
    exists (le_combine (take 8 bs) :: vs).
    assert (length (take 8 bs) = 8%nat) as H8 by (rewrite length_take; lia).
    split; [simpl; lia|]. split.
    + constructor; [|done].
      pose proof (le_combine_bound (take 8 bs)) as Hb. rewrite H8 in Hb.
      exact Hb.
    + unfold f64s in *. cbn [map concat]. rewrite Heq.
      rewrite <- H8 at 1. rewrite split_le_combine. apply take_drop.
Qed.


(** X7. The intrinsic parameter file that the tie point tool writes after a
    calibration has 296 bytes: kappa0..kappa2 and rho0, rho1 of the depth
    lens distortion, the depth projection and the color projection, each
    row major, all as [f64].  The loader of the background viewer takes a
    file of that size apart again into the same depth and color matrices
    and the same five coefficients; the distortion center and
    kappa3..kappa5 are not in the file and stay as the loader had them. *)
Theorem intrinsic_file_round_trip
  (c ic : Z * Z) (k0 k1 k2 k3 k4 k5 r0 r1 ik0 ik1 ik2 ik3 ik4 ik5 ir0 ir1 : Z)
  (depthProjection colorProjection : list Z) :
  let written := mkLD c [k0; k1; k2; k3; k4; k5] [r0; r1] in
  let ips := mkLD ic [ik0; ik1; ik2; ik3; ik4; ik5] [ir0; ir1] in
  let file := f64s ([k0; k1; k2; r0; r1] ++ depthProjection ++ colorProjection) in
  length depthProjection = 16%nat → length colorProjection = 16%nat →
  Forall (λ v, 0 ≤ v < 2 ^ 64)
    ([k0; k1; k2; r0; r1] ++ depthProjection ++ colorProjection) →
  TiePointTool_write written depthProjection colorProjection [] = Some file
  ∧ length file = 296%nat
  ∧ BackgroundViewer_load ips file
    = Some (mkLD ic [k0; k1; k2; ik3; ik4; ik5] [r0; r1],
            depthProjection, colorProjection).
Proof.
  intros written ips file Hd Hc Hbits.
  assert (length file = 296%nat) as Hlen.
  { subst file. rewrite f64s_length, !length_app, Hd, Hc. reflexivity. }
  split; [|split; [done|]].
  - unfold TiePointTool_write. subst written. cbn [kappas rhos].
    repeat (unroll_for; repeat calc_idx).
    rewrite write_matrix4_all by done. obind.
    rewrite write_matrix4_all by done.
    subst file. rewrite !f64s_app. unfold write_f64, f64s at 1.
    cbn [map concat app]. by rewrite <- !app_assoc.
  - unfold BackgroundViewer_load. rewrite Hlen.
    change (Z.of_nat 296 =? 296) with true. cbv iota.
    subst file. rewrite f64s_app.
    apply Forall_app in Hbits as [Hp Hbits].
    apply Forall_app in Hbits as [Hdb Hcb].
    change (read_f64_array 5)
      with (read_f64_array (Z.of_nat (length [k0; k1; k2; r0; r1]))).
    rewrite (read_f64_array_app [k0; k1; k2; r0; r1]) by done. obind.
    subst ips.
    repeat (unroll_for; repeat calc_idx; unfold setKappa, setRho;
            cbn [kappas rhos center]; repeat calc_upd).
    rewrite f64s_app.
    change (4 * 4) with (Z.of_nat 16). rewrite <- Hd at 1.
    rewrite (read_f64_array_app depthProjection) by done. obind.
    rewrite <- Hc at 1.
    rewrite <- (app_nil_r (f64s colorProjection)).
    rewrite (read_f64_array_app colorProjection) by done. reflexivity.
Qed.

Lemma intrinsic_file_round_trip_witness :
  let m := [1; 0; 0; 0; 0; 1; 0; 0; 0; 0; 1; 0; 0; 0; 0; 1] in
  let file := f64s ([7; 8; 9; 5; 6] ++ m ++ m) in
  TiePointTool_write (mkLD (1, 2) [7; 8; 9; 10; 11; 12] [5; 6]) m m []
  = Some file
  ∧ length file = 296%nat
  ∧ BackgroundViewer_load (mkLD (0, 0) [0; 0; 0; 0; 0; 0] [0; 0]) file
    = Some (mkLD (0, 0) [7; 8; 9; 0; 0; 0] [5; 6], m, m).
Proof.
  apply (intrinsic_file_round_trip (1, 2) (0, 0) 7 8 9 10 11 12 5 6
           0 0 0 0 0 0 0 0
           [1; 0; 0; 0; 0; 1; 0; 0; 0; 0; 1; 0; 0; 0; 0; 1]
           [1; 0; 0; 0; 0; 1; 0; 0; 0; 0; 1; 0; 0; 0; 0; 1]).
  - reflexivity.
  - reflexivity.
  - repeat constructor; lia.
Defined.

Lemma read_f64_array_consumes (n : Z) (f rest : list byte) (a : list Z) :
  0 ≤ n → read_f64_array n f = Some (a, rest) →
  Z.of_nat (length f) = 8 * n + Z.of_nat (length rest).
Proof.
  intros Hn. unfold read_f64_array, for_opt. rewrite Z.sub_0_r.
  replace n with (Z.of_nat (Z.to_nat n)) at 3 by lia.
  generalize (replicate (Z.to_nat n) 0). generalize 0.
  generalize (Z.to_nat n) as k. clear n Hn. intros k. revert f.
  induction k as [|k IH]; intros f i junk Hrun.
  - simpl in Hrun. injection Hrun as _ <-. lia.
  - cbn [iterate_opt] in Hrun. unfold read_f64, read_le, read_bytes in Hrun.
    destruct (Nat.leb_spec 8 (length f)); [|done].
    cbn [mbind option_bind] in Hrun.
    destruct (upd junk i (le_combine (take 8 f))) as [junk'|]; [|done].
    cbn [mbind option_bind] in Hrun.
    apply IH in Hrun. rewrite length_drop in Hrun. lia.
Qed.

(** X8. CalibrateCameras rewrites an intrinsic parameter file of at least
    296 bytes as its first 168 bytes (the five lens distortion coefficients
    and the depth matrix, bit for bit) followed by the new color projection;
    a shorter file makes it raise before anything is written. *)
Theorem calibrate_cameras_keeps_file_head
  (f : list byte) (colorProjection : list Z) :
  length colorProjection = 16%nat →
  ((296 ≤ length f)%nat →
   CalibrateCameras_rewrite f colorProjection
   = Some (take 168 f ++ f64s colorProjection))
  ∧ ((length f < 296)%nat → CalibrateCameras_rewrite f colorProjection = None).
Proof.
  intros Hc. split; intros Hlen.
  2:{ unfold CalibrateCameras_rewrite.
      destruct (read_f64_array 5 f) as [[p f1]|] eqn:H1; [|done].
      apply read_f64_array_consumes in H1; [|lia]. obind.
      destruct (read_f64_array (4 * 4) f1) as [[d f2]|] eqn:H2; [|done].
      apply read_f64_array_consumes in H2; [|lia]. obind.
      destruct (read_f64_array (4 * 4) f2) as [[c f3]|] eqn:H3; [|done].
      apply read_f64_array_consumes in H3; [|lia]. lia. }
  destruct (bytes_are_f64s 5 (take 40 f)) as (p & Hp & Hpb & Hpe).
  { rewrite length_take. lia. }
  destruct (bytes_are_f64s 16 (take 128 (drop 40 f))) as (d & Hd & Hdb & Hde).
  { rewrite length_take, length_drop. lia. }
  destruct (bytes_are_f64s 16 (take 128 (drop 168 f))) as (c & Hcl & Hcb & Hce).
  { rewrite length_take, length_drop. lia. }
  assert (f = f64s p ++ f64s d ++ f64s c ++ drop 296 f) as Hf.
  { rewrite Hpe, Hde, Hce.
    rewrite <- (take_drop 40 f) at 1. f_equal.
    rewrite <- (take_drop 128 (drop 40 f)) at 1. f_equal.
    rewrite drop_drop. change (40 + 128)%nat with 168%nat.
    rewrite <- (take_drop 128 (drop 168 f)) at 1. f_equal.
    by rewrite drop_drop. }
  assert (take 168 f = f64s p ++ f64s d) as ->.
  { rewrite Hpe, Hde. rewrite <- (take_drop 40 (take 168 f)).
    rewrite take_take. f_equal.
    by rewrite (take_drop_commute f 128 40). }
  unfold CalibrateCameras_rewrite. rewrite Hf at 1.
  change 5 with (Z.of_nat 5). rewrite <- Hp at 1.
  rewrite (read_f64_array_app p) by done. obind.
  change (4 * 4) with (Z.of_nat 16). rewrite <- Hd at 1.
  rewrite (read_f64_array_app d) by done. obind.
  rewrite <- Hcl at 1.
  rewrite (read_f64_array_app c) by done. obind.
  replace (Z.of_nat 5) with (Z.of_nat (length p)) by (by rewrite Hp).
  rewrite write_f64_array_all. obind.
  replace (Z.of_nat 16) with (Z.of_nat (length d)) by (by rewrite Hd).
  rewrite write_f64_array_all. obind.
  rewrite write_matrix4_all by done. reflexivity.
Qed.

Lemma calibrate_cameras_keeps_file_head_witness :
  CalibrateCameras_rewrite (replicate 296 Byte.x2a)
    [1; 0; 0; 0; 0; 1; 0; 0; 0; 0; 1; 0; 0; 0; 0; 1]
  = Some (take 168 (replicate 296 Byte.x2a)
          ++ f64s [1; 0; 0; 0; 0; 1; 0; 0; 0; 0; 1; 0; 0; 0; 0; 1]).
Proof.
  apply (calibrate_cameras_keeps_file_head (replicate 296 Byte.x2a)).
  - reflexivity.
  - rewrite length_replicate. lia.
Defined.

End IntrinsicFileProofs.

(** ** The projector and the pixel transforms *)

Section ProjectorBaseProofs.
Import ProjectorBase.
Context {PTransform ExtrinsicParameters LensDistortion : Type}.
Context (of_extrinsic : ExtrinsicParameters → PTransform).
Context (compose : PTransform → PTransform → PTransform).
Context (inverseTransform : PTransform → Q * Q * Q → Q * Q * Q).
Context (isIdentity : LensDistortion → bool).
Context (undistort : LensDistortion → Q * Q → Q * Q).

Local Abbreviation projector := (t PTransform ExtrinsicParameters LensDistortion).
Local Abbreviation call := (call PTransform ExtrinsicParameters LensDistortion).
Local Abbreviation source :=
  (FrameSource PTransform ExtrinsicParameters LensDistortion).
Local Abbreviation intrinsics := (IntrinsicParameters PTransform LensDistortion).

Lemma append_loop_length {A : Type} (g : Z → option A) (n : nat) (i : Z)
  (r r' : list A) :
  iterate_opt n i (λ x r, c ← g x; Some (r ++ [c])) r = Some r' →
  length r' = (length r + n)%nat.
Proof.
  revert i r. induction n as [|n IH]; intros i r Hrun.
  - simpl in Hrun. injection Hrun as <-. lia.
  - cbn [iterate_opt] in Hrun. destruct (g i) as [c|]; [|done].
    cbn [mbind option_bind] in Hrun. apply IH in Hrun.
    rewrite length_app in Hrun. simpl in Hrun. lia.
Qed.

Lemma table_rows_length (dc : DepthCorrection Q) (frameSize : Size) (n : nat)
  (y : Z) (r r' : list (PixelCorrection Q)) :
  iterate_opt n y
    (λ y result,
       let dy := BSpline.to_spline y (height (numSegments dc))
                   (height frameSize) in
       for_opt 0 (width frameSize)
         (λ x result,
            let dx := BSpline.to_spline x (width (numSegments dc))
                        (width frameSize) in
            cell ← BSpline.bspline (degree dc) (numSegments dc)
                     (controlPoints dc) dx dy;
            Some (result ++ [cell]))
         result) r = Some r' →
  length r' = (length r + n * Z.to_nat (width frameSize))%nat.
Proof.
  revert y r. induction n as [|n IH]; intros y r Hrun.
  - simpl in Hrun. injection Hrun as <-. lia.
  - cbn [iterate_opt] in Hrun.
    match type of Hrun with (?inner ≫= _) = _ =>
      destruct inner as [r1|] eqn:Hin; [|done] end.
    cbn [mbind option_bind] in Hrun. apply IH in Hrun.
    unfold for_opt in Hin. rewrite Z.sub_0_r in Hin.
    apply (append_loop_length
             (λ x, BSpline.bspline (degree dc) (numSegments dc)
                     (controlPoints dc)
                     (BSpline.to_spline x (width (numSegments dc))
                        (width frameSize))
                     (BSpline.to_spline y (height (numSegments dc))
                        (height frameSize)))) in Hin.
    lia.
Qed.

(** The dense table has one cell per pixel of the frame. *)
Lemma table_length (dc : DepthCorrection Q) (frameSize : Size)
  (table : list (PixelCorrection Q)) :
  0 ≤ width frameSize → 0 ≤ height frameSize →
  BSpline.getPixelCorrectionTable dc frameSize = Some table →
  Z.of_nat (length table) = volume frameSize.
Proof.
  intros Hw Hh Hrun. unfold BSpline.getPixelCorrectionTable, for_opt in Hrun.
  rewrite Z.sub_0_r in Hrun. apply table_rows_length in Hrun.
  unfold volume. simpl in Hrun. nia.
Qed.


Lemma perform_in_step (pb pb' : projector) (c : call) :
  perform of_extrinsic compose pb c = Some pb' →
  in_step of_extrinsic compose pb ∨ sets_projection c = true →
  in_step of_extrinsic compose pb'.
Proof.
  unfold in_step. intros Hrun Hpre.
  destruct c as [s|dc|ips|eps|cs|r]; cbn in Hrun.
  - injection Hrun as <-. by destruct Hpre.
  - unfold setDepthCorrection in Hrun.
    destruct (correctionBuffer dc (depthSize pb)); [|done].
    injection Hrun as <-. by destruct Hpre.
  - by injection Hrun as <-.
  - by injection Hrun as <-.
  - injection Hrun as <-. by destruct Hpre.
  - injection Hrun as <-. by destruct Hpre.
Qed.

(** X9. The combined projection of a projector is kept in step with its
    parameters: the constructor from a frame source leaves
    [worldDepthProjection] equal to the extrinsic transformation times the
    depth projection, each of [setIntrinsicParameters] and
    [setExtrinsicParameters] makes it so, and no other setter disturbs it,
    over any sequence of calls. *)
Theorem world_projection_in_step
  (frameSource : source) (pb0 pb pb' : projector) (cs : list call) :
  (construct of_extrinsic compose frameSource = Some pb0 →
   in_step of_extrinsic compose pb0)
  ∧ (perform_all of_extrinsic compose pb cs = Some pb' →
     in_step of_extrinsic compose pb ∨ existsb sets_projection cs = true →
     in_step of_extrinsic compose pb').
Proof.
  split.
  - unfold construct. intros Hrun.
    destruct (correctionBuffer _ _); [|done]. by injection Hrun as <-.
  - revert pb. induction cs as [|c cs IH]; intros pb Hrun Hpre.
    + injection Hrun as <-. by destruct Hpre.
    + cbn [perform_all] in Hrun.
      destruct (perform of_extrinsic compose pb c) as [pb1|] eqn:Hc; [|done].
      cbn [mbind option_bind] in Hrun. apply (IH pb1 Hrun).
      cbn [existsb] in Hpre.
      destruct (sets_projection c) eqn:Hs.
      * left. apply (perform_in_step pb pb1 c Hc). by right.
      * destruct Hpre as [Hin|Hex]; [|by right].
        left. apply (perform_in_step pb pb1 c Hc). by left.
Qed.


(** X11. [undistortDepthPixel] is the tangent space formula seen from the
    image: with nonzero focal lengths, taking its result back to tangent
    space gives exactly the undistorted tangent point, so a distortion
    formula that leaves the tangent point where it is leaves the pixel where
    it is. *)
Theorem undistort_depth_pixel_in_tangent_space
  (ips : intrinsics) (pixel : Q * Q) :
  ¬ (fx ips == 0)%Q → ¬ (fy ips == 0)%Q →
  let result := undistortDepthPixel undistort ips pixel in
  let utp := undistort (depthLensDistortion ips) (to_tangent ips pixel) in
  ((to_tangent ips result).1 == utp.1)%Q
  ∧ ((to_tangent ips result).2 == utp.2)%Q
  ∧ ((utp.1 == (to_tangent ips pixel).1)%Q →
     (utp.2 == (to_tangent ips pixel).2)%Q →
     (result.1 == pixel.1)%Q ∧ (result.2 == pixel.2)%Q).
Proof.
  intros Hfx Hfy result utp.
  unfold undistortDepthPixel in result. fold (to_tangent ips pixel) in result.
  fold utp in result. subst result. unfold to_tangent in *. cbn [fst snd] in *.
  destruct utp as [a b]. cbn [fst snd] in *.
  split; [field; split; done|]. split; [field; done|].
  intros Ha Hb. rewrite Ha, Hb. split; field; try split; done.
Qed.

End ProjectorBaseProofs.

Lemma world_projection_in_step_witness :
  let ips := ProjectorBase.mkIP tt (3 # 1)%Q 1%Q 1%Q 0%Q 0%Q 0%Q in
  let pb := ProjectorBase.mk (mkSize 1 1) None ips (2 # 1)%Q 0%Q RGB 5 in
  ProjectorBase.in_step (λ e : Q, e) Qmult
    (ProjectorBase.setIntrinsicParameters (λ e : Q, e) Qmult ips pb).
Proof.
  intros ips pb.
  apply (proj2 (world_projection_in_step (λ e : Q, e) Qmult
                  (ProjectorBase.mkFS (mkSize 1 1) RGB None ips (2 # 1)%Q)
                  pb pb
                  (ProjectorBase.setIntrinsicParameters (λ e : Q, e) Qmult ips pb)
                  [ProjectorBase.SetIntrinsicParameters ips])).
  - reflexivity.
  - right. reflexivity.
Defined.


Lemma undistort_depth_pixel_in_tangent_space_witness :
  let ips := ProjectorBase.mkIP tt tt (2 # 1)%Q (3 # 1)%Q 0%Q (5 # 1)%Q (7 # 1)%Q in
  let result := ProjectorBase.undistortDepthPixel (λ _ p, p) ips (11 # 1, 13 # 1)%Q in
  (result.1 == 11 # 1)%Q ∧ (result.2 == 13 # 1)%Q.
Proof.
  intros ips result.
  apply (undistort_depth_pixel_in_tangent_space (PTransform := unit)
           (λ _ p, p) ips (11 # 1, 13 # 1)%Q).
  - intros H. vm_compute in H. discriminate.
  - intros H. vm_compute in H. discriminate.
  - reflexivity.
  - reflexivity.
Defined.

(** ** RawKinectViewer: streaming callbacks, color background, depth colors *)

Section RawKinectViewerProofs.
Import RawKinectViewer.

Lemma find_callback_None (callbacks : list Z) (callback : Z) :
  find_callback callbacks callback = None ↔ callback ∉ callbacks.
Proof.
  induction callbacks as [|cb rest IH]; simpl.
  - split; [intros _; apply not_elem_of_nil|done].
  - destruct (Z.eqb_spec cb callback) as [->|Hne].
    + split; [done|]. intros Hnot. destruct Hnot. apply list_elem_of_here.
    + rewrite not_elem_of_cons, <- IH.
      destruct (find_callback rest callback); simpl.
      * split; [done|]. intros [_ Hn]. done.
      * split; [|done]. intros _. split; [congruence|done].
Qed.

Lemma find_callback_Some (callbacks : list Z) (callback : Z) (i : nat) :
  find_callback callbacks callback = Some i →
  ∃ pre suf, callbacks = pre ++ callback :: suf ∧ length pre = i.
Proof.
  revert i. induction callbacks as [|cb rest IH]; intros i; simpl; [done|].
  destruct (Z.eqb_spec cb callback) as [->|Hne].
  - intros [= <-]. by exists [], rest.
  - destruct (find_callback rest callback) as [j|]; simpl; [|done].
    intros [= <-]. destruct (IH j eq_refl) as (pre & suf & -> & <-).
    by exists (cb :: pre), suf.
Qed.

Lemma insert_middle_at {A : Type} (pre suf : list A) (x y : A) :
  <[length pre := y]> (pre ++ x :: suf) = pre ++ y :: suf.
Proof.
  replace (length pre) with (length pre + 0)%nat at 1 by lia.
  by rewrite insert_app_r.
Qed.

Lemma unregister_at (pre suf : list Z) (callback : Z) :
  find_callback (pre ++ callback :: suf) callback = Some (length pre) →
  callback :: unregisterCallback (pre ++ callback :: suf) callback
  ≡ₚ pre ++ callback :: suf.
Proof.
  intros Hfind. unfold unregisterCallback. rewrite Hfind.
  destruct (decide (suf = [])) as [->|Hsuf].
  - rewrite last_snoc. rewrite length_app. simpl.
    replace (length pre + 1 - 1)%nat with (length pre) by lia.
    rewrite insert_middle_at, take_app_length.
    by rewrite Permutation_cons_append.
  - destruct (exists_last Hsuf) as (suf' & l & ->).
    replace (pre ++ callback :: suf' ++ [l])
      with ((pre ++ callback :: suf') ++ [l]) by (by rewrite <- app_assoc).
    rewrite last_snoc, length_app. simpl.
    replace (length (pre ++ callback :: suf') + 1 - 1)%nat
      with (length (pre ++ callback :: suf')) by lia.
    rewrite <- app_assoc. simpl.
    rewrite insert_middle_at.
    replace (pre ++ l :: suf' ++ [l]) with ((pre ++ l :: suf') ++ [l])
      by (by rewrite <- app_assoc).
    replace (length (pre ++ callback :: suf'))
      with (length (pre ++ l :: suf')) by (rewrite !length_app; simpl; lia).
    rewrite take_app_length.
    rewrite <- !Permutation_middle. apply Permutation_skip.
    by rewrite app_nil_r.
Qed.

(** X12. Unregistering a streaming callback that was never registered
    leaves the list as it is, so registering a new callback and
    unregistering it again gives back the list, order included; and
    unregistering a registered callback removes exactly one entry of it and
    keeps every other entry, though not their order (the last entry moves
    into the gap). *)
Theorem unregister_removes_one (callbacks : list Z) (callback : Z) :
  (callback ∉ callbacks →
   unregisterCallback callbacks callback = callbacks
   ∧ unregisterCallback (registerCallback callbacks callback) callback
     = callbacks)
  ∧ (callback ∈ callbacks →
     callback :: unregisterCallback callbacks callback ≡ₚ callbacks).
Proof.
  split.
  - intros Hnot. split.
    + unfold unregisterCallback.
      apply find_callback_None in Hnot. by rewrite Hnot.
    + unfold registerCallback, unregisterCallback.
      assert (find_callback (callbacks ++ [callback]) callback
              = Some (length callbacks)) as ->.
      { clear -Hnot. induction callbacks as [|cb rest IH]; simpl.
        - by rewrite Z.eqb_refl.
        - apply not_elem_of_cons in Hnot as [Hne Hnot].
          destruct (Z.eqb_spec cb callback); [congruence|].
          by rewrite (IH Hnot). }
      rewrite last_snoc, length_app. simpl.
      replace (length callbacks + 1 - 1)%nat with (length callbacks) by lia.
      rewrite insert_middle_at. by rewrite take_app_length.
  - intros Hin.
    destruct (find_callback callbacks callback) as [i|] eqn:Hfind.
    + destruct (find_callback_Some _ _ _ Hfind) as (pre & suf & -> & <-).
      by apply unregister_at.
    + apply find_callback_None in Hfind. done.
Qed.

Lemma unregister_removes_one_witness :
  17 :: unregisterCallback [16; 17; 18; 17] 17 ≡ₚ [16; 17; 18; 17].
Proof.
  apply (proj2 (unregister_removes_one [16; 17; 18; 17] 17)).
  apply list_elem_of_In. simpl. tauto.
Defined.


Lemma capture_pixel_covers (lo hi f : list Z) :
  isBackground (capture_pixel (lo, hi) f) f = true.
Proof.
  unfold isBackground, capture_pixel. cbn [fst snd].
  revert lo hi. induction f as [|c f IH]; intros [|l lo] [|h hi]; try done.
  cbn [zip_with zip forallb fst snd]. rewrite IH, andb_true_r.
  apply andb_true_intro. split.
  - destruct (Z.ltb_spec c l); lia.
  - destruct (Z.ltb_spec h c); lia.
Qed.

Lemma capture_pixel_keeps (lo hi f g : list Z) :
  length f = length g →
  isBackground (lo, hi) g = true →
  isBackground (capture_pixel (lo, hi) f) g = true.
Proof.
  unfold isBackground, capture_pixel. cbn [fst snd].
  revert lo hi f. induction g as [|c g IH];
    intros [|l lo] [|h hi] [|x f] Hlen; try done.
  cbn [zip_with zip forallb fst snd]. simpl in Hlen.
  intros Hcov. apply andb_prop in Hcov as [Hc Hrest].
  apply andb_prop in Hc as [Hl Hh].
  rewrite (IH lo hi f) by (done || lia). rewrite andb_true_r.
  apply andb_true_intro. split.
  - destruct (Z.ltb_spec x l); lia.
  - destruct (Z.ltb_spec h x); lia.
Qed.

Lemma remove_covered (background : list (list Z * list Z)) (frame : list (list Z)) :
  Forall2 (λ b f, isBackground b f = true) background frame →
  remove_background background frame = replicate (length frame) [0; 0; 0].
Proof.
  induction 1 as [|b f background frame Hb _ IH]; [done|].
  cbn [remove_background length replicate]. by rewrite Hb, IH.
Qed.

Lemma capture_frame_covers (background : list (list Z * list Z))
  (frame : list (list Z)) :
  length frame = length background →
  Forall2 (λ b f, isBackground b f = true) (capture_frame background frame)
          frame.
Proof.
  revert frame. induction background as [|[lo hi] background IH];
    intros [|f frame] Hlen; try done; cbn [capture_frame];
    constructor; [apply capture_pixel_covers|].
  apply IH. simpl in Hlen. lia.
Qed.

Lemma capture_frame_keeps (background : list (list Z * list Z))
  (frame other : list (list Z)) :
  Forall2 (λ f g : list Z, length f = length g) frame other →
  Forall2 (λ b g, isBackground b g = true) background other →
  Forall2 (λ b g, isBackground b g = true) (capture_frame background frame)
          other.
Proof.
  intros Hshape. revert background.
  induction Hshape as [|f g frame other Hfg _ IH]; intros background Hcov.
  - by destruct background.
  - destruct background as [|[lo hi] background]; [by inversion Hcov|].
    apply Forall2_cons in Hcov as [Hb Hcov].
    cbn [capture_frame]. constructor; [by apply capture_pixel_keeps|].
    by apply IH.
Qed.

Lemma color_capture_frame_length (background : list (list Z * list Z))
  (frame : list (list Z)) :
  length (capture_frame background frame) = length background.
Proof.
  revert frame. induction background as [|b background IH];
    intros [|f frame]; simpl; auto.
Qed.

(** X13. Once a sequence of color frames of the buffer's size has been
    entered into the background removal buffer, every one of these frames is
    wholly background: removing the background from it blanks every pixel.
    In particular the frame posted while a frame is being captured is all
    black, and the count of frames left to capture goes down by one. *)
Theorem captured_color_frames_are_background
  (background : list (list Z * list Z)) (frames : list (list (list Z)))
  (frame : list (list Z)) (n : Z) :
  Forall (λ fr, Forall2 (λ f g : list Z, length f = length g) fr frame) frames →
  length frame = length background →
  frame ∈ frames →
  remove_background (foldl capture_frame background frames) frame
  = replicate (length frame) [0; 0; 0]
  ∧ (0 < n → ∃ background',
       colorStreamingCallback (Some background) n frame
       = Some (Some background', wrap32 (n - 1),
               replicate (length frame) [0; 0; 0])).
Proof.
  intros Hshape Hlen Hin. split.
  - apply remove_covered. revert background Hlen.
    induction frames as [|fr frames IH]; intros background Hlen.
    + by apply elem_of_nil in Hin.
    + apply Forall_cons in Hshape as [Hfr Hshape]. cbn [foldl].
      assert (length fr = length frame) as Hfrlen
        by (by eapply Forall2_length).
      destruct (decide (frame ∈ frames)) as [Hlater|Hnot].
      * apply IH; [done|done|]. by rewrite color_capture_frame_length.
      * apply elem_of_cons in Hin as [->|]; [|done].
        clear IH Hnot Hfr.
        assert (Forall2 (λ b g, isBackground b g = true)
                  (capture_frame background fr) fr) as Hcov
          by (by apply capture_frame_covers).
        revert Hcov. generalize (capture_frame background fr).
        induction frames as [|fr' frames IH]; intros bg Hcov; [done|].
        apply Forall_cons in Hshape as [Hfr' Hshape]. cbn [foldl].
        apply IH; [done|]. by apply capture_frame_keeps.
  - intros Hn. unfold colorStreamingCallback.
    destruct (Z.ltb_spec 0 n); [|lia]. cbn [mbind option_bind].
    eexists. rewrite remove_covered; [reflexivity|].
    by apply capture_frame_covers.
Qed.

Lemma captured_color_frames_are_background_witness :
  remove_background
    (foldl capture_frame (emptyBackground 1) [[[10; 20; 30]]; [[12; 18; 30]]])
    [[10; 20; 30]]
  = replicate 1 [0; 0; 0]
  ∧ (0 < 150 → ∃ background',
       colorStreamingCallback (Some (emptyBackground 1)) 150 [[10; 20; 30]]
       = Some (Some background', wrap32 (150 - 1), replicate 1 [0; 0; 0])).
Proof.
  apply (captured_color_frames_are_background (emptyBackground 1)
           [[[10; 20; 30]]; [[12; 18; 30]]] [[10; 20; 30]] 150).
  - repeat constructor.
  - reflexivity.
  - apply list_elem_of_here.
Defined.

End RawKinectViewerProofs.

Section MapDepthProofs.
Import RawKinectViewer.

Lemma Qltb_spec (x y : Q) : reflect (x < y)%Q (BSpline.Qltb x y).
Proof.
  unfold BSpline.Qltb. destruct (Qle_bool y x) eqn:E; constructor.
  - apply Qle_bool_iff in E. lra.
  - apply Qnot_le_lt. intros H. apply Qle_bool_iff in H. congruence.
Qed.

Lemma GLubyte_in_range (x : Q) :
  (0 <= x)%Q → (x < 256)%Q →
  ∃ c, GLubyte x = Some c ∧ 0 ≤ c ≤ 255.
Proof.
  intros H0 H256. unfold GLubyte, truncate.
  assert (Qle_bool 0 x = true) as -> by (by apply Qle_bool_iff).
  assert (0 ≤ Qfloor x) as Hlo
    by (change 0 with (Qfloor 0); by apply Qfloor_resp_le).
  assert (Qfloor x < 256) as Hhi.
  { rewrite Zlt_Qlt. eapply Qle_lt_trans; [apply Qfloor_le|done]. }
  destruct (Z.leb_spec 0 (Qfloor x)); [|lia].
  destruct (Z.leb_spec (Qfloor x) 255); [|lia].
  eexists; split; [reflexivity|lia].
Qed.

Lemma plane_color (dist depthPlaneDistMax : Q) :
  (0 < depthPlaneDistMax)%Q → (0 <= dist)%Q →
  ∃ col,
    (if BSpline.Qltb dist depthPlaneDistMax then
       c ← GLubyte (dist * 255 / depthPlaneDistMax + (1 # 2))%Q;
       Some (255 - c)
     else Some 0) = Some col ∧ 0 ≤ col ≤ 255.
Proof.
  intros Hmax Hdist. destruct (Qltb_spec dist depthPlaneDistMax) as [Hlt|_].
  - destruct (GLubyte_in_range (dist * 255 / depthPlaneDistMax + (1 # 2)))
      as (c & -> & Hc).
    + assert (0 <= dist * 255 / depthPlaneDistMax)%Q
        by (apply Qle_shift_div_l; lra). lra.
    + assert (dist * 255 / depthPlaneDistMax < 255)%Q
        by (apply Qlt_shift_div_r; lra). lra.
    + cbn [mbind option_bind]. eexists; split; [reflexivity|lia].
  - exists 0. split; [done|lia].
Qed.

Lemma blend_in_range (c0 c1 : Z) (d : Q) :
  0 ≤ c0 ≤ 255 → 0 ≤ c1 ≤ 255 → (0 <= d)%Q → (d < 1)%Q →
  ∃ c, GLubyte ((inject_Z c0 * (1 - d) + inject_Z c1 * d)
                * (d * (8 # 10) + (2 # 10)))%Q = Some c ∧ 0 ≤ c ≤ 255.
Proof.
  intros H0 H1 Hd0 Hd1.
  assert (0 <= inject_Z c0)%Q by (change 0%Q with (inject_Z 0); rewrite <- Zle_Qle; lia).
  assert (inject_Z c0 <= 255)%Q by (change 255%Q with (inject_Z 255); rewrite <- Zle_Qle; lia).
  assert (0 <= inject_Z c1)%Q by (change 0%Q with (inject_Z 0); rewrite <- Zle_Qle; lia).
  assert (inject_Z c1 <= 255)%Q by (change 255%Q with (inject_Z 255); rewrite <- Zle_Qle; lia).
  set (a := (inject_Z c0 * (1 - d) + inject_Z c1 * d)%Q).
  assert (0 <= a)%Q by (unfold a; nra).
  assert (a <= 255)%Q by (unfold a; nra).
  apply GLubyte_in_range; nra.
Qed.

Ltac calc_table :=
  repeat (progress (repeat match goal with
  | |- context [idx ?l ?i] =>
      let v := eval vm_compute in (idx l i) in change (idx l i) with v
  | |- context [upd ?l ?i ?x] =>
      let v := eval vm_compute in (upd l i x) in change (upd l i x) with v
  end; cbn [mbind option_bind])).

Lemma mapDepth_below_color :
  ∃ r g b, mapDepth_below = Some [r; g; b]
           ∧ 0 ≤ r ≤ 255 ∧ 0 ≤ g ≤ 255 ∧ 0 ≤ b ≤ 255.
Proof. exists 51, 0, 0. split; [by vm_compute|lia]. Qed.

Lemma mapDepth_above_color :
  ∃ r g b, mapDepth_above = Some [r; g; b]
           ∧ 0 ≤ r ≤ 255 ∧ 0 ≤ g ≤ 255 ∧ 0 ≤ b ≤ 255.
Proof. exists 255, 0, 255. split; [by vm_compute|lia]. Qed.

Lemma mapDepth_between_color (i0 : Z) (d : Q) :
  0 ≤ i0 ≤ 4 → (0 <= d)%Q → (d < 1)%Q →
  ∃ r g b,
    for_opt 0 3
      (λ i result,
         row0 ← idx mapColors i0; c0 ← idx row0 i;
         row1 ← idx mapColors (i0 + 1); c1 ← idx row1 i;
         b ← GLubyte ((inject_Z c0 * (1 - d) + inject_Z c1 * d)
                      * (d * (8 # 10) + (2 # 10)))%Q;
         upd result i b)
      [0; 0; 0] = Some [r; g; b]
    ∧ 0 ≤ r ≤ 255 ∧ 0 ≤ g ≤ 255 ∧ 0 ≤ b ≤ 255.
Proof.
  intros Hi0 Hd0 Hd1.
  assert (i0 = 0 ∨ i0 = 1 ∨ i0 = 2 ∨ i0 = 3 ∨ i0 = 4)
    as [->|[->|[->|[->| ->]]]] by lia;
    unroll_for;
    repeat (calc_table;
            match goal with
            | |- context [GLubyte ((inject_Z ?c0 * (1 - ?e) + inject_Z ?c1 * ?e)
                                   * _)%Q] =>
                destruct (blend_in_range c0 c1 e) as (? & -> & ?);
                [lia|lia|done|done|]
            end);
    calc_table; eexists _, _, _; (split; [reflexivity|lia]).
Qed.


Lemma truncate_fraction (d : Q) :
  (0 < d)%Q → (d < 5)%Q →
  0 ≤ truncate d ≤ 4
  ∧ (0 <= d - inject_Z (truncate d))%Q ∧ (d - inject_Z (truncate d) < 1)%Q.
Proof.
  intros H0 H5. unfold truncate.
  assert (Qle_bool 0 d = true) as -> by (apply Qle_bool_iff; lra).
  pose proof (Qfloor_le d) as Hle. pose proof (Qlt_floor d) as Hlt.
  rewrite inject_Z_plus in Hlt. change (inject_Z 1) with 1%Q in Hlt.
  assert (0 ≤ Qfloor d)
    by (change 0 with (Qfloor 0); apply Qfloor_resp_le; lra).
  assert (Qfloor d < 5)
    by (rewrite Zlt_Qlt; change (inject_Z 5) with 5%Q; lra).
  repeat split; (lia || lra).
Qed.

Lemma mapDepth_cases (depthPlaneValid : bool) (dist depthPlaneDistMax : Q)
  (depthValueRange : Q * Q) (depth : Q) :
  (depthPlaneValid = false
   ∧ (depthValueRange.2 == depthValueRange.1)%Q
   ∧ (depth == depthValueRange.1)%Q
   ∧ mapDepth depthPlaneValid dist depthPlaneDistMax depthValueRange depth
     = None)
  ∨ (¬ (depthPlaneValid = false
        ∧ (depthValueRange.2 == depthValueRange.1)%Q
        ∧ (depth == depthValueRange.1)%Q)
     ∧ ∃ r g b,
         mapDepth depthPlaneValid dist depthPlaneDistMax depthValueRange depth
         = Some [r; g; b]
         ∧ 0 ≤ r ≤ 255 ∧ 0 ≤ g ≤ 255 ∧ 0 ≤ b ≤ 255).
Proof.
  destruct depthValueRange as [lo hi]. unfold mapDepth. cbn [fst snd].
  destruct depthPlaneValid.
  { right. split; [by intros [? _]|].
    destruct (Qle_bool 0 dist) eqn:Hsign.
    - apply Qle_bool_iff in Hsign.
      destruct (Qltb_spec dist depthPlaneDistMax) as [Hlt|_].
      + destruct (plane_color dist depthPlaneDistMax) as (col & Hcol & ?);
          [lra|done|].
        destruct (Qltb_spec dist depthPlaneDistMax); [|done].
        rewrite Hcol. cbn [mbind option_bind].
        eexists _, _, _; (split; [reflexivity|lia]).
      + cbn [mbind option_bind]. eexists _, _, _; (split; [reflexivity|lia]).
    - assert (0 <= - dist)%Q as Hneg.
      { apply Qlt_le_weak, Qnot_le_lt. intros H. 
        assert (0 <= dist)%Q as H' by lra.
        apply Qle_bool_iff in H'. congruence. }
      destruct (Qltb_spec (- dist) depthPlaneDistMax) as [Hlt|_].
      + destruct (plane_color (- dist) depthPlaneDistMax) as (col & Hcol & ?);
          [lra|done|].
        destruct (Qltb_spec (- dist) depthPlaneDistMax); [|done].
        rewrite Hcol. cbn [mbind option_bind].
        eexists _, _, _; (split; [reflexivity|lia]).
      + cbn [mbind option_bind]. eexists _, _, _; (split; [reflexivity|lia]). }
  unfold fdiv.
  destruct (Qeq_bool (hi - lo) 0) eqn:Hden.
  - apply Qeq_bool_iff in Hden.
    destruct (Qeq_bool ((depth - lo) * 5) 0) eqn:Hnum.
    + apply Qeq_bool_iff in Hnum. left. repeat split; lra.
    + apply Qeq_bool_neq in Hnum. right. split; [intros (_ & _ & ?); lra|].
      destruct (Qle_bool 0 ((depth - lo) * 5));
        [apply mapDepth_above_color|apply mapDepth_below_color].
  - apply Qeq_bool_neq in Hden. right. split; [intros (_ & ? & _); lra|].
    set (d := ((depth - lo) * 5 / (hi - lo))%Q).
    destruct (Qle_bool d 0) eqn:Hd0; [apply mapDepth_below_color|].
    destruct (Qle_bool 5 d) eqn:Hd5; [apply mapDepth_above_color|].
    assert (0 < d)%Q.
    { apply Qnot_le_lt. intros Hle. apply Qle_bool_iff in Hle. congruence. }
    assert (d < 5)%Q.
    { apply Qnot_le_lt. intros Hle. apply Qle_bool_iff in Hle. congruence. }
    destruct (truncate_fraction d) as (? & ? & ?); [done|done|].
    by apply mapDepth_between_color.
Qed.


End MapDepthProofs.

(** ** CompressDepthFile: which frames are filtered *)

Section DepthFileProofs.
Import CompressDepthFile.

Lemma process_splits (frames : list (list Z)) (n : Z) (background : list Z) :
  0 ≤ n < 2 ^ 32 →
  process n background frames
  = (foldl capture_frame background (take (Z.to_nat n) frames),
     take (Z.to_nat n) frames
     ++ map (λ frame,
               remove_background frame
                 (foldl capture_frame background (take (Z.to_nat n) frames)))
            (drop (Z.to_nat n) frames)).
Proof.
  revert n background.
  induction frames as [|frame frames IH]; intros n background Hn.
  - by rewrite take_nil, drop_nil.
  - cbn [process]. destruct (Z.ltb_spec 0 n) as [Hpos|Hzero].
    + assert (wrap32 (n - 1) = n - 1) as ->
        by (unfold wrap32; rewrite Z.mod_small; lia).
      rewrite IH by lia.
      replace (Z.to_nat n) with (S (Z.to_nat (n - 1))) by lia.
      reflexivity.
    + assert (n = 0) as -> by lia. rewrite IH by lia.
      change (Z.to_nat 0) with O. by rewrite !take_0, !drop_0.
Qed.

(** X15. CompressDepthFile treats exactly the first 150 frames of the file
    as capture frames: they build the background and are written as they
    were read, background and all; every later frame is written with the
    background removed, and the background it is compared with is the one
    left by those 150 frames (or by all frames of a shorter file). *)
Theorem depth_file_captures_then_filters (size : Size)
  (frames : list (list Z)) :
  main size frames
  = (foldl capture_frame
       (replicate (Z.to_nat (volume size)) invalidDepth) (take 150 frames),
     take 150 frames
     ++ map (λ frame,
               remove_background frame
                 (foldl capture_frame
                    (replicate (Z.to_nat (volume size)) invalidDepth)
                    (take 150 frames)))
            (drop 150 frames)).
Proof. unfold main. by rewrite process_splits. Qed.

End DepthFileProofs.

(** ** BackgroundViewer: file names and the editing sphere *)

Section BackgroundViewerProofs.
Import BackgroundViewer.
Import Stdlib.Strings.Ascii.

Lemma scan_slash_none (rest : list ascii) (pos start : nat) :
  "/"%char ∉ rest → scan_slash rest pos start = start.
Proof.
  revert pos. induction rest as [|c rest IH]; intros pos Hno; [done|].
  apply not_elem_of_cons in Hno as [Hc Hno]. cbn [scan_slash].
  destruct (Ascii.eqb_spec c "/"); [by subst|]. by apply IH.
Qed.

Lemma scan_slash_last (pre rest : list ascii) (pos start : nat) :
  "/"%char ∉ rest →
  scan_slash (pre ++ "/"%char :: rest) pos start = (pos + length pre + 1)%nat.
Proof.
  intros Hno. revert pos start.
  induction pre as [|c pre IH]; intros pos start.
  - cbn [app scan_slash length]. rewrite scan_slash_none by done.
    destruct (Ascii.eqb_spec "/" "/"); [lia|done].
  - cbn [app scan_slash length]. rewrite IH. lia.
Qed.

Lemma split_at_last_slash (name : list ascii) :
  ∃ dir file, name = dir ++ file
              ∧ (dir = [] ∨ ∃ d, dir = d ++ ["/"%char])
              ∧ "/"%char ∉ file.
Proof.
  induction name as [|c name (dir & file & -> & [->|[d ->]] & Hno)].
  - exists [], []. split; [done|]. split; [by left|apply not_elem_of_nil].
  - destruct (decide (c = "/"%char)) as [->|Hc].
    + exists ["/"%char], file. split; [done|]. split; [|done].
      right. by exists [].
    + exists [], (c :: file). split; [done|]. split; [by left|].
      by apply not_elem_of_cons.
  - exists (c :: d ++ ["/"%char]), file. split; [done|]. split; [|done].
    right. by exists (c :: d).
Qed.

Lemma fileNameStart_dir (dir file : list ascii) :
  dir = [] ∨ (∃ d, dir = d ++ ["/"%char]) → "/"%char ∉ file →
  fileNameStart (dir ++ file) = length dir.
Proof.
  intros [->|[d ->]] Hno; unfold fileNameStart.
  - by apply scan_slash_none.
  - rewrite <- app_assoc. cbn [app]. rewrite scan_slash_last by done.
    rewrite length_app. simpl. lia.
Qed.

Lemma serialEnd_no_dot (s : list ascii) :
  "."%char ∉ take (serialEnd s) s.
Proof.
  induction s as [|c s IH]; cbn [serialEnd]; [apply not_elem_of_nil|].
  destruct (Ascii.eqb_spec c "."); [apply not_elem_of_nil|].
  cbn [take]. by apply not_elem_of_cons.
Qed.

Lemma serialEnd_at_dot (s rest : list ascii) :
  "."%char ∉ s → serialEnd (s ++ "."%char :: rest) = length s.
Proof.
  induction s as [|c s IH]; intros Hno; cbn [app serialEnd length].
  - by destruct (Ascii.eqb_spec "." ".").
  - apply not_elem_of_cons in Hno as [Hc Hno].
    destruct (Ascii.eqb_spec c "."); [done|]. by rewrite IH.
Qed.

(** X16. The background viewer finds a camera serial number in the name of
    the background file exactly when the name is a directory part (empty,
    or ending in a slash) followed by Background-, the serial number and
    .background, the serial number being non-empty and free of slashes and
    dots; the depth correction file it then tries is DepthCorrection-,
    the serial number and .dat in the same directory. *)
Theorem serial_number_of_background_file (backgroundFileName serial : list ascii) :
  serial ≠ [] →
  (serialNumber backgroundFileName = serial
   ↔ ∃ dir,
       backgroundFileName
       = dir ++ chars "Background-" ++ serial ++ chars ".background"
       ∧ (dir = [] ∨ ∃ d, dir = d ++ ["/"%char])
       ∧ ("/"%char ∉ serial) ∧ ("."%char ∉ serial))
  ∧ (∀ dir,
       backgroundFileName
       = dir ++ chars "Background-" ++ serial ++ chars ".background" →
       dir = [] ∨ (∃ d, dir = d ++ ["/"%char]) →
       "/"%char ∉ serial → "."%char ∉ serial →
       depthCorrectionFileName backgroundFileName
       = Some (dir ++ chars "DepthCorrection-" ++ serial ++ chars ".dat")).
Proof.
  intros Hserial.
  assert (∀ dir,
            backgroundFileName
            = dir ++ chars "Background-" ++ serial ++ chars ".background" →
            dir = [] ∨ (∃ d, dir = d ++ ["/"%char]) →
            "/"%char ∉ serial → "."%char ∉ serial →
            fileNameStart backgroundFileName = length dir
            ∧ serialNumber backgroundFileName = serial) as Hfwd.
  { intros dir -> Hdir Hslash Hdot.
    assert (fileNameStart
              (dir ++ chars "Background-" ++ serial ++ chars ".background")
            = length dir) as Hstart.
    { apply fileNameStart_dir; [done|].
      rewrite !not_elem_of_app. split; [|split; [done|]].
      - by apply (bool_decide_unpack _).
      - by apply (bool_decide_unpack _). }
    split; [done|]. unfold serialNumber. rewrite Hstart, drop_app_length.
    change (take 11 (chars "Background-" ++ serial ++ chars ".background"))
      with (chars "Background-").
    rewrite bool_decide_eq_true_2 by done.
    change (drop 11 (chars "Background-" ++ serial ++ chars ".background"))
      with (serial ++ chars ".background").
    assert (serialEnd (serial ++ chars ".background") = length serial)
      as Hend by (by apply (serialEnd_at_dot serial (chars "background"))).
    cbv zeta. rewrite !Hend, drop_app_length, take_app_length.
    rewrite bool_decide_eq_true_2 by done.
    destruct serial; [done|]. done. }
  split; [split|].
  - intros Hs. unfold serialNumber in Hs.
    destruct (split_at_last_slash backgroundFileName)
      as (dir & file & -> & Hdir & Hno).
    rewrite fileNameStart_dir, drop_app_length in Hs by done.
    destruct (bool_decide_reflect (take 11 file = chars "Background-"))
      as [Hprefix|]; [|by subst serial].
    set (serialStart := drop 11 file) in *.
    destruct (Nat.eqb_spec (serialEnd serialStart) 0) as [|Hn];
      [by subst serial|]. cbn [negb andb] in Hs.
    destruct (bool_decide_reflect
                (drop (serialEnd serialStart) serialStart
                 = chars ".background")) as [Hsuffix|]; [|by subst serial].
    exists dir.
    assert (file = chars "Background-" ++ serial ++ chars ".background")
      as Hfile.
    { rewrite <- (take_drop 11 file), Hprefix. f_equal.
      fold serialStart.
      rewrite <- (take_drop (serialEnd serialStart) serialStart) at 1.
      by rewrite Hs, Hsuffix. }
    split; [by rewrite Hfile|]. split; [done|]. split.
    + rewrite Hfile in Hno. rewrite !not_elem_of_app in Hno. tauto.
    + rewrite <- Hs. apply serialEnd_no_dot.
  - intros (dir & Hname & Hdir & Hslash & Hdot).
    by destruct (Hfwd dir).
  - intros dir Hname Hdir Hslash Hdot.
    destruct (Hfwd dir) as [Hstart Hs]; [done..|].
    unfold depthCorrectionFileName. rewrite Hs, Hstart.
    subst backgroundFileName. rewrite take_app_length.
    by destruct serial.
Qed.

Lemma serial_number_of_background_file_witness :
  serialNumber (chars "/data/Background-B00364.background") = chars "B00364".
Proof.
  apply (proj2 (proj1 (serial_number_of_background_file
                         (chars "/data/Background-B00364.background")
                         (chars "B00364") ltac:(done)))).
  exists (chars "/data/"). split; [reflexivity|]. split.
  - right. by exists (chars "/data").
  - split; by apply (bool_decide_unpack _).
Defined.

End BackgroundViewerProofs.

Section EditingProofs.
Import BackgroundViewer.
Local Open Scope Q_scope.

Lemma exit_on_sphere (d2 ph cc r2 s lambda : Q) :
  0 < d2 → s * s == ph * ph - (cc - r2) * d2 → lambda * d2 == s - ph →
  lambda * lambda * d2 + 2 * lambda * ph + cc == r2.
Proof.
  intros Hd2 Hs Hl.
  assert ((lambda * lambda * d2 + 2 * lambda * ph + cc - r2) * d2 == 0) as H.
  { setoid_replace ((lambda * lambda * d2 + 2 * lambda * ph + cc - r2) * d2)
      with ((lambda * d2) * (lambda * d2) + 2 * (lambda * d2) * ph
            + (cc - r2) * d2) using relation Qeq by ring.
    rewrite Hl.
    setoid_replace ((s - ph) * (s - ph) + 2 * (s - ph) * ph + (cc - r2) * d2)
      with (s * s - ph * ph + (cc - r2) * d2) using relation Qeq by ring.
    rewrite Hs. ring. }
  apply Qmult_integral in H as [H|H]; lra.
Qed.

Lemma exit_behind_pixel (d2 ph cc r2 s lambda : Q) :
  0 < d2 → d2 + 2 * ph + cc <= r2 → 0 <= s →
  s * s == ph * ph - (cc - r2) * d2 → lambda * d2 == s - ph →
  1 <= lambda.
Proof.
  intros Hd2 Hin Hs0 Hs Hl.
  assert (ph + d2 <= s) as Hge.
  { apply Qnot_lt_le. intros Hlt.
    assert ((ph + d2) * (ph + d2) <= s * s) as Hsq.
    { rewrite Hs.
      setoid_replace (ph * ph - (cc - r2) * d2)
        with ((ph + d2) * (ph + d2) + d2 * (r2 - (d2 + 2 * ph + cc))) using relation Qeq by ring.
      assert (0 <= d2 * (r2 - (d2 + 2 * ph + cc)))
        by (apply Qmult_le_0_compat; lra). lra. }
    assert (s * s < (ph + d2) * (ph + d2)); [|lra].
    assert (0 < ph + d2) by lra.
    nra. }
  apply Qnot_lt_le. intros Hlt.
  assert (lambda * d2 < 1 * d2) by (apply Qmult_lt_compat_r; lra). lra.
Qed.


Lemma Qsquare_nonneg (x : Q) : 0 <= x * x.
Proof.
  destruct (Qlt_le_dec x 0).
  - setoid_replace (x * x) with ((- x) * (- x)) using relation Qeq by ring.
    apply Qmult_le_0_compat; lra.
  - apply Qmult_le_0_compat; lra.
Qed.

Lemma inside_discriminant (d2 ph cc r2 : Q) :
  0 < d2 → d2 + 2 * ph + cc <= r2 → 0 <= ph * ph - (cc - r2) * d2.
Proof.
  intros Hd2 Hin.
  setoid_replace (ph * ph - (cc - r2) * d2)
    with ((ph + d2) * (ph + d2) + d2 * (r2 - (d2 + 2 * ph + cc)))
    using relation Qeq by ring.
  assert (0 <= d2 * (r2 - (d2 + 2 * ph + cc)))
    by (apply Qmult_le_0_compat; lra).
  pose proof (Qsquare_nonneg (ph + d2)).
  set (a := (ph + d2) * (ph + d2)) in *.
  set (b := d2 * (r2 - (d2 + 2 * ph + cc))) in *. lra.
Qed.



End EditingProofs.

(** ** TiePointTool: the refined grid corner *)

Section TiePointToolProofs.
Import TiePointTool.
Local Open Scope Q_scope.

Lemma Qltb_true (x y : Q) : x < y → BSpline.Qltb x y = true.
Proof.
  intros Hlt. unfold BSpline.Qltb.
  destruct (Qle_bool y x) eqn:Hle; [|done].
  apply Qle_bool_iff in Hle. by apply Qle_not_lt in Hle.
Qed.

(** X18. When the lines through opposing neighbours of a grid corner are
    not parallel, the two points the corner extraction averages are one and
    the same point, the crossing of the two lines; and for a corner that
    sits on that crossing the corner that is stored is the corner itself.
    The arithmetic is exact. *)
Theorem refined_corner_is_the_crossing (corner p0 p1 p2 p3 : Point) :
  ¬ det p0 p1 p2 p3 == 0 →
  ((along p0 p2 (alpha p0 p1 p2 p3)).1 == (along p1 p3 (beta p0 p1 p2 p3)).1
   ∧ (along p0 p2 (alpha p0 p1 p2 p3)).2
     == (along p1 p3 (beta p0 p1 p2 p3)).2)
  ∧ (∀ a b,
       corner.1 == (along p0 p2 a).1 → corner.2 == (along p0 p2 a).2 →
       corner.1 == (along p1 p3 b).1 → corner.2 == (along p1 p3 b).2 →
       ∃ stored, refineCorner corner p0 p1 p2 p3 = Some stored
                 ∧ stored.1 == corner.1 ∧ stored.2 == corner.2).
Proof.
  intros Hdet.
  destruct p0 as [x0 y0], p1 as [x1 y1], p2 as [x2 y2], p3 as [x3 y3].
  destruct corner as [cx cy].
  unfold alpha, beta, along, det in *. cbn [fst snd] in *.
  split; [split; field; exact Hdet|].
  intros a b Hax Hay Hbx Hby.
  assert (a == ((y1 - y3) * (x1 - x0) + (x3 - x1) * (y1 - y0))
               / ((x2 - x0) * (y1 - y3) - (x1 - x3) * (y2 - y0))) as Ha.
  { apply Qmult_inj_r with ((x2 - x0) * (y1 - y3) - (x1 - x3) * (y2 - y0));
      [exact Hdet|].
    setoid_replace
      (((y1 - y3) * (x1 - x0) + (x3 - x1) * (y1 - y0))
       / ((x2 - x0) * (y1 - y3) - (x1 - x3) * (y2 - y0))
       * ((x2 - x0) * (y1 - y3) - (x1 - x3) * (y2 - y0)))
      with ((y1 - y3) * (x1 - x0) + (x3 - x1) * (y1 - y0))
      using relation Qeq by (field; exact Hdet).
    setoid_replace
      (a * ((x2 - x0) * (y1 - y3) - (x1 - x3) * (y2 - y0)))
      with ((y1 - y3) * ((x0 + (x2 - x0) * a) - x0)
            - (x1 - x3) * ((y0 + (y2 - y0) * a) - y0))
      using relation Qeq by ring.
    rewrite <- Hax, <- Hay, Hbx, Hby. ring. }
  unfold refineCorner, alpha, beta, along, mid, sqrDist, det.
  cbn [fst snd].
  destruct (Qeq_bool ((x2 - x0) * (y1 - y3) - (x1 - x3) * (y2 - y0)) 0)
    eqn:Hz; [by apply Qeq_bool_iff in Hz|].
  set (al := ((y1 - y3) * (x1 - x0) + (x3 - x1) * (y1 - y0))
             / ((x2 - x0) * (y1 - y3) - (x1 - x3) * (y2 - y0))) in *.
  set (be := ((y0 - y2) * (x1 - x0) + (x2 - x0) * (y1 - y0))
             / ((x2 - x0) * (y1 - y3) - (x1 - x3) * (y2 - y0))) in *.
  assert (x0 + (x2 - x0) * al == x1 + (x3 - x1) * be) as Hx
    by (unfold al, be; field; exact Hdet).
  assert (y0 + (y2 - y0) * al == y1 + (y3 - y1) * be) as Hy
    by (unfold al, be; field; exact Hdet).
  assert ((x0 + (x2 - x0) * al + (x1 + (x3 - x1) * be)) / 2 == cx) as Hix
    by (rewrite <- Hx, <- Ha, <- Hax; field).
  assert ((y0 + (y2 - y0) * al + (y1 + (y3 - y1) * be)) / 2 == cy) as Hiy
    by (rewrite <- Hy, <- Ha, <- Hay; field).
  rewrite Qltb_true.
  - eexists. split; [reflexivity|]. cbn [fst snd].
    split; [rewrite Hix|rewrite Hiy]; field.
  - rewrite Hix, Hiy.
    setoid_replace ((cx - cx) * (cx - cx) + (cy - cy) * (cy - cy)) with 0
      using relation Qeq by ring.
    reflexivity.
Qed.

Lemma refined_corner_is_the_crossing_witness :
  ∃ stored, refineCorner (1, 1) (0, 1) (1, 0) (2, 1) (1, 2) = Some stored
            ∧ stored.1 == 1 ∧ stored.2 == 1.
Proof.
  apply (proj2 (refined_corner_is_the_crossing (1, 1) (0, 1) (1, 0) (2, 1)
                  (1, 2) ltac:(discriminate)) (1 # 2) (1 # 2));
    reflexivity.
Defined.

End TiePointToolProofs.

(** ** OrbbecSDKContext: the life of the SDK context *)

Section OrbbecSDKContextProofs.
Import OrbbecSDKContext.

Lemma run_snoc (ops : list bool) (acquire : bool) (c : t) :
  run (ops ++ [acquire]) c
  = if acquire then ref (run ops c) else unref (run ops c).
Proof. unfold run. by rewrite foldl_app. Qed.

Lemma pointers_snoc (ops : list bool) (acquire : bool) :
  pointers (ops ++ [acquire])
  = if acquire then pointers ops + 1 else pointers ops - 1.
Proof. unfold pointers. by rewrite foldl_app. Qed.



End OrbbecSDKContextProofs.

(** ** DepthCorrectionTool: the regression of one pixel *)

Section DepthCorrectionToolProofs.
Import DepthCorrectionTool.
Local Open Scope Q_scope.

Lemma regression_snoc (dip : Q * Q) (depthFrames : list DepthFrame)
  (df : DepthFrame) :
  regression dip (depthFrames ++ [df])
  = accumulate dip (regression dip depthFrames) df.
Proof. unfold regression. by rewrite foldl_app. Qed.

Lemma actuals_snoc (depthFrames : list DepthFrame) (df : DepthFrame) :
  actuals (depthFrames ++ [df])
  = actuals depthFrames
    ++ (if negb (Qeq_bool (actual df) 2047) then [actual df] else []).
Proof.
  unfold actuals. rewrite filter_app, fmap_app. f_equal.
  rewrite filter_cons, filter_nil.
  destruct (negb (Qeq_bool (actual df) 2047)) eqn:Hv.
  - by rewrite decide_True.
  - by rewrite decide_False.
Qed.

Lemma Qsquare_zero (x : Q) : x * x == 0 → x == 0.
Proof. intros H. apply Qmult_integral in H. tauto. Qed.

(** The sums against the list of depth values that entered them. *)
Lemma regression_sums (dip : Q * Q) (depthFrames : list DepthFrame) :
  let r := regression dip depthFrames in
  ata01 r == ata10 r
  ∧ ata11 r == inject_Z (Z.of_nat (length (actuals depthFrames)))
  ∧ (∀ c, 0 <= ata00 r - 2 * c * ata01 r + c * c * ata11 r)
  ∧ (∀ c, ata00 r - 2 * c * ata01 r + c * c * ata11 r == 0
          ↔ ∀ a, a ∈ actuals depthFrames → a == c)
  ∧ 0 <= ata00 r * ata11 r - ata01 r * ata10 r
  ∧ (ata00 r * ata11 r - ata01 r * ata10 r == 0
     ↔ ∀ a b, a ∈ actuals depthFrames → b ∈ actuals depthFrames → a == b).
Proof.
  induction depthFrames as [|df depthFrames IH] using rev_ind.
  - cbn. repeat split; try (intros; ring_simplify; lra); try done.
    + intros _ a Ha. by apply elem_of_nil in Ha.
    + intros _ a b Ha. by apply elem_of_nil in Ha.
  - rewrite regression_snoc, actuals_snoc. cbv zeta in IH.
    destruct IH as (Hsym & Hn & Hv & Hv0 & Hd & Hd0).
    unfold accumulate.
    destruct (negb (Qeq_bool (actual df) 2047)) eqn:Hvalid;
      [|rewrite app_nil_r; done].
    set (r := regression dip depthFrames) in *.
    set (a := actual df). cbn [ata00 ata01 ata10 ata11].
    assert (∀ c, ata00 r + a * a - 2 * c * (ata01 r + a)
                 + c * c * (ata11 r + 1)
                 == (ata00 r - 2 * c * ata01 r + c * c * ata11 r)
                    + (a - c) * (a - c)) as Hstep by (intros c; ring).
    assert ((ata00 r + a * a) * (ata11 r + 1)
            - (ata01 r + a) * (ata10 r + a)
            == (ata00 r * ata11 r - ata01 r * ata10 r)
               + (ata00 r - 2 * a * ata01 r + a * a * ata11 r)) as Hdet
      by (rewrite <- Hsym; ring).
    split; [by rewrite Hsym|]. split.
    { rewrite length_app, Nat2Z.inj_add, inject_Z_plus, Hn. reflexivity. }
    split.
    { intros c. rewrite Hstep. pose proof (Hv c).
      pose proof (Qsquare_nonneg (a - c)). 
      set (p := (a - c) * (a - c)) in *.
      set (q := ata00 r - 2 * c * ata01 r + c * c * ata11 r) in *. lra. }
    split.
    { intros c. rewrite Hstep. pose proof (Hv c) as Hvc.
      pose proof (Qsquare_nonneg (a - c)) as Hsq.
      split.
      - intros Hzero b Hb.
        assert (ata00 r - 2 * c * ata01 r + c * c * ata11 r == 0
                ∧ (a - c) * (a - c) == 0) as [Hq Hp].
        { set (p := (a - c) * (a - c)) in *.
          set (q := ata00 r - 2 * c * ata01 r + c * c * ata11 r) in *.
          split; lra. }
        apply elem_of_app in Hb as [Hb|Hb].
        + by apply Hv0.
        + apply list_elem_of_singleton in Hb as ->.
          apply Qsquare_zero in Hp. lra.
      - intros Hall.
        assert (ata00 r - 2 * c * ata01 r + c * c * ata11 r == 0) as ->.
        { apply Hv0. intros b Hb. apply Hall, elem_of_app. by left. }
        assert (a == c) as ->
          by (apply Hall, elem_of_app; right; apply list_elem_of_here).
        ring. }
    split.
    { rewrite Hdet. pose proof (Hv a).
      set (p := ata00 r * ata11 r - ata01 r * ata10 r) in *.
      set (q := ata00 r - 2 * a * ata01 r + a * a * ata11 r) in *. lra. }
    rewrite Hdet. pose proof (Hv a) as Hva. split.
    + intros Hzero.
      assert (ata00 r * ata11 r - ata01 r * ata10 r == 0
              ∧ ata00 r - 2 * a * ata01 r + a * a * ata11 r == 0)
        as [Hp Hq].
      { set (p := ata00 r * ata11 r - ata01 r * ata10 r) in *.
        set (q := ata00 r - 2 * a * ata01 r + a * a * ata11 r) in *.
        split; lra. }
      pose proof (proj1 (Hv0 a) Hq) as Hall.
      intros b1 b2 Hb1 Hb2.
      assert (∀ b, b ∈ actuals depthFrames ++ [a] → b == a) as Hone.
      { intros b Hb. apply elem_of_app in Hb as [Hb|Hb]; [by apply Hall|].
        by apply list_elem_of_singleton in Hb as ->. }
      rewrite (Hone b1), (Hone b2) by done. reflexivity.
    + intros Hall.
      assert (ata00 r * ata11 r - ata01 r * ata10 r == 0) as ->.
      { apply Hd0. intros b1 b2 Hb1 Hb2.
        apply Hall; apply elem_of_app; by left. }
      assert (ata00 r - 2 * a * ata01 r + a * a * ata11 r == 0) as ->;
        [|reflexivity].
      apply Hv0. intros b Hb. apply Hall; apply elem_of_app;
        [by left|right; apply list_elem_of_here].
Qed.


Lemma regression_normal_equations (dip : Q * Q)
  (depthFrames : list DepthFrame) (scale offset : Q) :
  (∀ df, df ∈ depthFrames → Qeq_bool (actual df) 2047 = false →
         expected dip df == scale * actual df + offset) →
  ata00 (regression dip depthFrames) * scale
  + ata01 (regression dip depthFrames) * offset
  == atb0 (regression dip depthFrames)
  ∧ ata10 (regression dip depthFrames) * scale
    + ata11 (regression dip depthFrames) * offset
    == atb1 (regression dip depthFrames).
Proof.
  induction depthFrames as [|df depthFrames IH] using rev_ind; intros Hfit.
  - cbn. split; ring.
  - rewrite regression_snoc. unfold accumulate.
    destruct IH as [H0 H1].
    { intros df' Hin. apply Hfit, elem_of_app. by left. }
    destruct (Qeq_bool (actual df) 2047) eqn:Hvalid; cbn [negb]; [done|].
    cbn [ata00 ata01 ata10 ata11 atb0 atb1].
    rewrite (Hfit df) by (done || apply elem_of_app; right;
                          apply list_elem_of_here).
    rewrite <- H0, <- H1. split; ring.
Qed.

(** X20. The 2x2 system the depth correction tool builds for a pixel, from
    the frames in which the pixel is valid.  If the expected depths are an
    exact affine function of the measured ones, that scale and offset solve
    the system.  The determinant of the system is never negative, and it is
    zero exactly when all measured depths of the pixel are equal: two valid
    frames are not enough, they must differ in depth.  The arithmetic is
    exact. *)
Theorem pixel_regression_system (dip : Q * Q) (depthFrames : list DepthFrame)
  (scale offset : Q) :
  ((∀ df, df ∈ depthFrames → Qeq_bool (actual df) 2047 = false →
          expected dip df == scale * actual df + offset) →
   ata00 (regression dip depthFrames) * scale
   + ata01 (regression dip depthFrames) * offset
   == atb0 (regression dip depthFrames)
   ∧ ata10 (regression dip depthFrames) * scale
     + ata11 (regression dip depthFrames) * offset
     == atb1 (regression dip depthFrames))
  ∧ 0 <= ata00 (regression dip depthFrames) * ata11 (regression dip depthFrames)
         - ata01 (regression dip depthFrames)
           * ata10 (regression dip depthFrames)
  ∧ (ata00 (regression dip depthFrames) * ata11 (regression dip depthFrames)
     - ata01 (regression dip depthFrames) * ata10 (regression dip depthFrames)
     == 0
     ↔ ∀ a b, a ∈ actuals depthFrames → b ∈ actuals depthFrames → a == b).
Proof.
  split; [apply regression_normal_equations|].
  pose proof (regression_sums dip depthFrames) as Hsums. cbv zeta in Hsums.
  tauto.
Qed.

End DepthCorrectionToolProofs.

(** ** CalibrateCameras: the linear system of the color projection *)

Section CalibrateCamerasProofs.
Import CalibrateCameras.
Local Open Scope Q_scope.

Lemma dot_nil_r (v : list Q) : dot v [] == 0.
Proof. by destruct v. Qed.

Lemma dot_cons (a x : Q) (v w : list Q) :
  dot (a :: v) (x :: w) == a * x + dot v w.
Proof. reflexivity. Qed.

Lemma dot_accumulate_row (row eq h : list Q) (c : Q) :
  length row = length eq →
  dot (zip_with (λ aij ej, aij + c * ej) row eq) h
  == dot row h + c * dot eq h.
Proof.
  revert eq h. induction row as [|a row IH]; intros [|e eq] h Hlen;
    try discriminate.
  - cbn [zip_with]. unfold dot. cbn. ring.
  - destruct h as [|x h].
    + rewrite !dot_nil_r. ring.
    + cbn [zip_with]. rewrite !dot_cons, IH by (simpl in Hlen; lia). ring.
Qed.

Lemma accumulate_rows (a : list (list Q)) (eq : list Q) (n : nat) :
  length eq = n → Forall (λ row, length row = n) a →
  Forall (λ row, length row = n) (accumulate a eq).
Proof.
  intros Heq Ha. unfold accumulate. generalize eq at 2 as cs.
  induction Ha as [|row a Hrow Ha IH]; intros [|c cs]; cbn [zip_with];
    constructor; [|apply IH].
  rewrite length_zip_with. lia.
Qed.

Lemma accumulate_null (a : list (list Q)) (eq h : list Q) :
  Forall (λ row, length row = length eq) a →
  dot eq h == 0 →
  Forall (λ row, dot row h == 0) a →
  Forall (λ row, dot row h == 0) (accumulate a eq).
Proof.
  intros Hlen Heq Ha. unfold accumulate.
  generalize eq at 2 as cs. revert Hlen.
  induction Ha as [|row a Hrow Ha IH]; intros Hlen cs; [constructor|].
  destruct cs as [|c cs]; [constructor|]. cbn [zip_with].
  apply Forall_cons in Hlen as [Hr Hlen]. constructor.
  - rewrite dot_accumulate_row by done. rewrite Hrow, Heq. ring.
  - by apply IH.
Qed.


Lemma quad_accumulate (a : list (list Q)) (eq cs v w : list Q) :
  Forall (λ row, length row = length eq) a → length a = length cs →
  dot ((λ row, dot row v)
       <$> zip_with (λ row ei, zip_with (λ aij ej, aij + ei * ej) row eq)
             a cs) w
  == dot ((λ row, dot row v) <$> a) w + dot eq v * dot cs w.
Proof.
  intros Hrows. revert cs w.
  induction Hrows as [|row a Hrow Hrows IH]; intros [|c cs] w Hlen;
    try discriminate.
  - cbn. unfold dot. cbn. ring.
  - destruct w as [|x w].
    + rewrite !dot_nil_r. ring.
    + cbn [zip_with fmap list_fmap]. rewrite !dot_cons.
      rewrite dot_accumulate_row by done.
      rewrite IH by (simpl in Hlen; lia). ring.
Qed.

Lemma system_from (imgSize : Q * Q) (entries : list Entry) (h : list Q)
  (a : list (list Q)) :
  Forall (λ e,
            dot (eq0 (x e) (y e) (z e) (s e / imgSize.1)) h == 0
            ∧ dot (eq1 (x e) (y e) (z e) (t e / imgSize.2)) h == 0)
         entries →
  Forall (λ row, length row = 12%nat) a →
  Forall (λ row, dot row h == 0) a →
  Forall (λ row, dot row h == 0)
    (foldl
       (λ a e,
          accumulate
            (accumulate a (eq0 (x e) (y e) (z e) (s e / imgSize.1)))
            (eq1 (x e) (y e) (z e) (t e / imgSize.2)))
       a entries).
Proof.
  intros Hentries. revert a.
  induction Hentries as [|e entries [He0 He1] _ IH]; intros a Hrows Hnull;
    [done|].
  cbn [foldl]. apply IH.
  - apply accumulate_rows; [done|]. by apply accumulate_rows.
  - apply accumulate_null; [by apply accumulate_rows|done|].
    by apply accumulate_null.
Qed.

Lemma system_positive (imgSize : Q * Q) (entries : list Entry) (v : list Q)
  (a : list (list Q)) :
  Forall (λ row, length row = 12%nat) a → length a = 12%nat →
  0 <= dot ((λ row, dot row v) <$> a) v →
  0 <= dot ((λ row, dot row v)
            <$> foldl
                  (λ a e,
                     accumulate
                       (accumulate a
                          (eq0 (x e) (y e) (z e) (s e / imgSize.1)))
                       (eq1 (x e) (y e) (z e) (t e / imgSize.2)))
                  a entries) v.
Proof.
  revert a. induction entries as [|e entries IH]; intros a Hrows Hlen Hpos;
    [done|].
  cbn [foldl].
  assert (length (accumulate a (eq0 (x e) (y e) (z e) (s e / imgSize.1)))
          = 12%nat) as Hlen0
    by (unfold accumulate; rewrite length_zip_with, Hlen; reflexivity).
  apply IH.
  - apply accumulate_rows; [done|]. by apply accumulate_rows.
  - unfold accumulate at 1. rewrite length_zip_with, Hlen0. reflexivity.
  - unfold accumulate at 1.
    rewrite quad_accumulate; [|by apply accumulate_rows|done].
    unfold accumulate. rewrite quad_accumulate by done.
    set (q := dot ((λ row, dot row v) <$> a) v) in *.
    set (d0 := dot (eq0 (x e) (y e) (z e) (s e / imgSize.1)) v).
    set (d1 := dot (eq1 (x e) (y e) (z e) (t e / imgSize.2)) v).
    assert (0 <= d0 * d0) by nra. assert (0 <= d1 * d1) by nra.
    set (p0 := d0 * d0) in *. set (p1 := d1 * d1) in *. lra.
Qed.



End CalibrateCamerasProofs.
